(** * flashSale.py: order lifecycle and coupon redemption

    A shallow embedding of the request handlers of
    [src/flashSale-app/flashSale.py] over the four tables of [shop.db],
    followed by the properties of the order state machine and of the
    coupon ledger.

    Each handler is a function from the database to a response and a new
    database.  [redeem_coupon] is in addition cut at the points where the
    Flask worker thread gives way to other requests (the server runs with
    [threaded=True] and the handler sleeps between its checks and its
    writes), so that interleavings of several requests can be run. *)

From stdpp Require Import gmap strings list fin_maps.

Local Open Scope Z_scope.

(** ** Tables *)

(** [orders.status]: the comment on the schema lists the four values. *)
Inductive status := PENDING | PAID | SHIPPED | CANCELLED.

#[global] Instance status_eq_dec : EqDecision status.
Proof. solve_decision. Defined.

(** A row of [users], keyed by [id]. *)
Record user := { email : string; password_hash : string }.

(** A row of [orders], keyed by [id]. *)
Record order := { user_id : Z; total_amount : Z; order_status : status }.

(** A row of [coupons], keyed by [code]. *)
Record coupon := { discount : Z; max_uses : Z; current_uses : Z }.

(** A row of [coupon_redemptions].  The table has a row id and no other
    key: nothing in the schema relates two rows with the same
    [(user_id, coupon_code)]. *)
Record redemption := { red_id : Z; red_user_id : Z; coupon_code : string }.

#[global] Instance redemption_eq_dec : EqDecision redemption.
Proof. solve_decision. Defined.

Record DB := {
  users : gmap Z user;
  orders : gmap Z order;
  coupons : gmap string coupon;
  coupon_redemptions : list redemption
}.

Definition set_orders (db : DB) (os : gmap Z order) : DB :=
  {| users := users db; orders := os; coupons := coupons db;
     coupon_redemptions := coupon_redemptions db |}.

(** SQLite gives a new row of an [INTEGER PRIMARY KEY] table the largest
    id in use plus one, and 1 in an empty table.  The definitions below
    follow it on tables whose ids are positive and below [2 ^ 63 - 1],
    which are the tables that inserts without an id build, the handlers'
    among them.  On a table whose ids are all negative, or where the id
    [2 ^ 63 - 1] is in use, SQLite does otherwise; the statements that
    name a new order's id assume [usual_order_ids]. *)
Definition max_rowid (ids : list Z) : Z := foldr Z.max 0 ids.

Definition next_order_id (os : gmap Z order) : Z :=
  1 + max_rowid (map_to_list os).*1.

Definition next_redemption_id (rs : list redemption) : Z :=
  1 + max_rowid (red_id <$> rs).

(** The rows [init_db] seeds. *)
Definition seed_db : DB := {|
  users := {[ 1 := {| email := "customer@example.com";
                      password_hash := "hashed_secret" |} ]};
  orders := ∅;
  coupons := {[ "FLASH50" := {| discount := 50; max_uses := 100;
                                current_uses := 0 |} ]};
  coupon_redemptions := []
|}.

(** ** Responses *)

(** The JSON replies of the handlers, one constructor per [return]. *)
Inductive response :=
  | AuthenticationRequired                     (* 401, create_order *)
  | OrderCreated (order_id : Z) (st : status)  (* 200, create_order *)
  | PaymentSuccessful (st : status)            (* 200, process_payment *)
  | OrderNotFound                              (* 404, ship_order *)
  | OrderCannotBeShipped                       (* 400, ship_order *)
  | OrderShipped (st : status) (tracking : string) (* 200, ship_order *)
  | Unauthorized                               (* 401, redeem_coupon *)
  | InvalidCoupon                              (* 404, redeem_coupon *)
  | CouponExhausted                            (* 400, redeem_coupon *)
  | CouponAlreadyUsed                          (* 400, redeem_coupon *)
  | CouponApplied (d : Z)                      (* 200, redeem_coupon *)
  | RedemptionFailed                           (* 500, redeem_coupon *)
  | InternalServerError.                       (* 500, uncaught exception *)

#[global] Instance response_eq_dec : EqDecision response.
Proof. solve_decision. Defined.

Definition http_status (r : response) : Z :=
  match r with
  | AuthenticationRequired | Unauthorized => 401
  | OrderNotFound | InvalidCoupon => 404
  | OrderCannotBeShipped | CouponExhausted | CouponAlreadyUsed => 400
  | RedemptionFailed | InternalServerError => 500
  | OrderCreated _ _ | PaymentSuccessful _ | OrderShipped _ _
  | CouponApplied _ => 200
  end.

(** The error kinds of the design document, with one more for the
    failure of the storage, which the document describes without naming
    it; and the kind each reply stands for.  A reply with status 200 is no
    error. *)
Inductive error_kind :=
  | NOT_FOUND | INVALID_STATE | EXHAUSTED | ALREADY_REDEEMED
  | VERIFICATION_FAILED | UNAUTHORIZED | VALIDATION_ERROR
  | STORAGE_FAILURE.

Definition error_of (r : response) : option error_kind :=
  match r with
  | AuthenticationRequired | Unauthorized => Some UNAUTHORIZED
  | OrderNotFound | InvalidCoupon => Some NOT_FOUND
  | OrderCannotBeShipped => Some INVALID_STATE
  | CouponExhausted => Some EXHAUSTED
  | CouponAlreadyUsed => Some ALREADY_REDEEMED
  | RedemptionFailed | InternalServerError => Some STORAGE_FAILURE
  | OrderCreated _ _ | PaymentSuccessful _ | OrderShipped _ _
  | CouponApplied _ => None
  end.

(** ** Authentication *)

(** [authenticate]: [g.user] is the row of [users] whose id is the
    [X-User-ID] header, if the header is there and the row exists.  The
    handlers read only [g.user['id']], so [g.user] is kept as that id. *)
Definition authenticate (x_user_id : option Z) (db : DB) : option Z :=
  match x_user_id with
  | Some uid => match users db !! uid with
                | Some _ => Some uid
                | None => None
                end
  | None => None
  end.

(** ** Orders *)

(** SQLite stores integers of 64 bits; the [sqlite3] module raises
    [OverflowError] when asked to bind a Python integer outside them. *)
Definition fits_int64 (z : Z) : bool :=
  (- 2 ^ 63 <=? z) && (z <=? 2 ^ 63 - 1).

(** [create_order]: [total] is the [total] field of the request body
    when present ([data.get('total', 0)]). *)
Definition create_order (g_user : option Z) (total : option Z) (db : DB)
  : response * DB :=
  match g_user with
  | None => (AuthenticationRequired, db)
  | Some uid =>
      let amount := default 0 total in
      if fits_int64 amount then
        let order_id := next_order_id (orders db) in
        (OrderCreated order_id PENDING,
         set_orders db
           (<[order_id := {| user_id := uid; total_amount := amount;
                             order_status := PENDING |}]> (orders db)))
      else (InternalServerError, db)
  end.

(** [UPDATE orders SET status = ? WHERE id = ?]: the row with that id, if
    there is one, gets the new status. *)
Definition set_status (st : status) (o : order) : order :=
  {| user_id := user_id o; total_amount := total_amount o;
     order_status := st |}.

Definition update_order_status (st : status) (order_id : Z) (db : DB) : DB :=
  set_orders db (alter (set_status st) order_id (orders db)).

(** [process_payment]: the update, then the reply, whatever the update
    did. *)
Definition process_payment (order_id : Z) (db : DB) : response * DB :=
  (PaymentSuccessful PAID, update_order_status PAID order_id db).

(** [ship_order]. *)
Definition ship_order (order_id : Z) (db : DB) : response * DB :=
  match orders db !! order_id with
  | None => (OrderNotFound, db)
  | Some o =>
      if bool_decide (order_status o ∈ [SHIPPED; CANCELLED])
      then (OrderCannotBeShipped, db)
      else (OrderShipped SHIPPED "TRACK-12345",
            update_order_status SHIPPED order_id db)
  end.

(** ** Coupon redemption *)

Definition set_coupons (db : DB) (cs : gmap string coupon) : DB :=
  {| users := users db; orders := orders db; coupons := cs;
     coupon_redemptions := coupon_redemptions db |}.

Definition set_redemptions (db : DB) (rs : list redemption) : DB :=
  {| users := users db; orders := orders db; coupons := coupons db;
     coupon_redemptions := rs |}.

(** [SELECT * FROM coupon_redemptions WHERE user_id = ? AND coupon_code = ?]:
    the rows in table order; [fetchone] is the [head] of them. *)
Definition select_redemptions (uid : Z) (code : string)
    (rs : list redemption) : list redemption :=
  filter (λ r, red_user_id r = uid ∧ coupon_code r = code) rs.

(** [UPDATE coupons SET current_uses = current_uses + 1 WHERE code = ?]:
    the increment is on the value in the table when the statement runs,
    not on the row fetched earlier. *)
Definition use_once (c : coupon) : coupon :=
  {| discount := discount c; max_uses := max_uses c;
     current_uses := current_uses c + 1 |}.

Definition increment_uses (code : string) (db : DB) : DB :=
  set_coupons db (alter use_once code (coupons db)).

(** [INSERT INTO coupon_redemptions (user_id, coupon_code) VALUES (?, ?)]. *)
Definition insert_redemption (uid : Z) (code : string) (db : DB) : DB :=
  set_redemptions db
    (coupon_redemptions db ++
       [{| red_id := next_redemption_id (coupon_redemptions db);
           red_user_id := uid; coupon_code := code |}]).

(** What the storage does to the [try] block of [redeem_coupon]: nothing,
    or an exception out of the update, the insert, or the commit (the
    database stays locked by another writer past the busy timeout, the
    disk is full, and so on). *)
Inductive fault := NoFault | UpdateRaises | InsertRaises | CommitRaises.

#[global] Instance fault_eq_dec : EqDecision fault.
Proof. solve_decision. Defined.

Definition raising (f at_stmt : fault) (db : DB) : option DB :=
  if decide (f = at_stmt) then None else Some db.

(** The body of the [try]: the two statements run in one transaction on
    the connection's view of the database, and the result is what
    [commit] publishes; [None] is an exception, after which the handler
    rolls back. *)
Definition apply_coupon (f : fault) (uid : Z) (code : string) (db : DB)
  : option DB :=
  db1 ← raising f UpdateRaises (increment_uses code db);
  db2 ← raising f InsertRaises (insert_redemption uid code db1);
  raising f CommitRaises db2.

(** [redeem_coupon], run without any other request in between. *)
Definition redeem_coupon (f : fault) (g_user : option Z) (code : string)
    (db : DB) : response * DB :=
  match g_user with
  | None => (Unauthorized, db)
  | Some uid =>
      match coupons db !! code with
      | None => (InvalidCoupon, db)
      | Some c =>
          if bool_decide (max_uses c ≤ current_uses c)
          then (CouponExhausted, db)
          else
            match head (select_redemptions uid code (coupon_redemptions db)) with
            | Some _ => (CouponAlreadyUsed, db)
            | None =>
                match apply_coupon f uid code db with
                | Some db' => (CouponApplied (discount c), db')
                | None => (RedemptionFailed, db)
                end
            end
      end
  end.

(** ** Concurrent requests

    The development server is started with [threaded=True]: each request
    runs [redeem_coupon] in a thread of its own, on a connection of its
    own.  The two [SELECT]s run outside any transaction, so other requests
    can read and write between them and during the [time.sleep] that
    follows; the update and the insert run in one write transaction, which
    SQLite makes visible to the other connections all at once at
    [commit].  A request is therefore cut in three indivisible steps. *)

Inductive redeem_pc :=
  | Entered
  | CouponFetched (uid : Z) (c : coupon)   (* the coupon row passed its checks *)
  | Validating (uid : Z) (c : coupon)      (* in [time.sleep(0.3)] *)
  | Replied (r : response).

Record worker := {
  w_user : option Z;
  w_code : string;
  w_fault : fault;
  w_pc : redeem_pc
}.

Definition at_pc (w : worker) (pc : redeem_pc) : worker :=
  {| w_user := w_user w; w_code := w_code w; w_fault := w_fault w;
     w_pc := pc |}.

Definition redeem_request (f : fault) (g_user : option Z) (code : string)
  : worker :=
  {| w_user := g_user; w_code := code; w_fault := f; w_pc := Entered |}.

Definition worker_step (w : worker) (db : DB) : worker * DB :=
  match w_pc w with
  | Entered =>
      match w_user w with
      | None => (at_pc w (Replied Unauthorized), db)
      | Some uid =>
          match coupons db !! w_code w with
          | None => (at_pc w (Replied InvalidCoupon), db)
          | Some c =>
              if bool_decide (max_uses c ≤ current_uses c)
              then (at_pc w (Replied CouponExhausted), db)
              else (at_pc w (CouponFetched uid c), db)
          end
      end
  | CouponFetched uid c =>
      match head (select_redemptions uid (w_code w) (coupon_redemptions db)) with
      | Some _ => (at_pc w (Replied CouponAlreadyUsed), db)
      | None => (at_pc w (Validating uid c), db)
      end
  | Validating uid c =>
      match apply_coupon (w_fault w) uid (w_code w) db with
      | Some db' => (at_pc w (Replied (CouponApplied (discount c))), db')
      | None => (at_pc w (Replied RedemptionFailed), db)
      end
  | Replied _ => (w, db)
  end.

Definition reply (w : worker) : option response :=
  match w_pc w with Replied r => Some r | _ => None end.

(** The requests in flight and the database they share; a schedule names
    the request that takes the next step. *)
Definition system : Type := list worker * DB.

Definition system_step (s : system) (i : nat) : system :=
  match s.1 !! i with
  | Some w => let '(w', db') := worker_step w s.2 in (<[i := w']> s.1, db')
  | None => s
  end.

Definition run (sched : list nat) (s : system) : system :=
  foldl system_step s sched.

Definition replies (s : system) : list (option response) := reply <$> s.1.

Definition granted (code : string) (db : DB) : Z :=
  from_option current_uses 0 (coupons db !! code).

Definition capacity (code : string) (db : DB) : Z :=
  from_option max_uses 0 (coupons db !! code).

Definition applied (r : option response) : bool :=
  match r with Some (CouponApplied _) => true | _ => false end.

(** ** The application: requests served one after the other *)

(** The four routes over the shop tables, with what each reads from the
    request.  [authenticate] runs before every handler. *)
Inductive request :=
  | Checkout (x_user_id : option Z) (total : option Z)
  | Payment (order_id : Z)
  | Ship (order_id : Z)
  | Redeem (f : fault) (x_user_id : option Z) (code : string).

Definition handle (rq : request) (db : DB) : response * DB :=
  match rq with
  | Checkout h total => create_order (authenticate h db) total db
  | Payment order_id => process_payment order_id db
  | Ship order_id => ship_order order_id db
  | Redeem f h code => redeem_coupon f (authenticate h db) code db
  end.

Fixpoint serve (rqs : list request) (db : DB) : list response * DB :=
  match rqs with
  | [] => ([], db)
  | rq :: rqs' =>
      let '(r, db1) := handle rq db in
      let '(rs, db2) := serve rqs' db1 in
      (r :: rs, db2)
  end.

(** One redemption request of each of the customers [uids], in turn. *)
Definition redeem_in_turn (code : string) (uids : list Z) : list request :=
  (λ uid, Redeem NoFault (Some uid) code) <$> uids.

(** ** Notions of the design document *)

(** The order lifecycle: PENDING to PAID to SHIPPED, CANCELLED from
    PENDING or PAID, nothing out of SHIPPED or CANCELLED. *)
Inductive lifecycle_step : status → status → Prop :=
  | pay_pending : lifecycle_step PENDING PAID
  | ship_paid : lifecycle_step PAID SHIPPED
  | cancel_pending : lifecycle_step PENDING CANCELLED
  | cancel_paid : lifecycle_step PAID CANCELLED.

Definition terminal (st : status) : Prop := st ∈ [SHIPPED; CANCELLED].

Definition status_in (order_id : Z) (db : DB) : option status :=
  order_status <$> orders db !! order_id.

Definition tracking_of (r : response) : option string :=
  match r with OrderShipped _ t => Some t | _ => None end.

(** At most one redemption row for each user and coupon. *)
Definition unique_redemptions (db : DB) : Prop :=
  ∀ uid code,
    (length (select_redemptions uid code (coupon_redemptions db)) ≤ 1)%nat.

Definition redeemed_by (uid : Z) (code : string) (db : DB) : bool :=
  bool_decide (select_redemptions uid code (coupon_redemptions db) ≠ []).

(** Every coupon's counter is between 0 and its limit. *)
Definition within_capacity (db : DB) : Prop :=
  ∀ code c, coupons db !! code = Some c → 0 ≤ current_uses c ≤ max_uses c.

(** The two readings of "the coupon is exhausted". *)
Definition granted_equals_capacity (c : coupon) : bool :=
  bool_decide (current_uses c = max_uses c).

Definition granted_reaches_capacity (c : coupon) : bool :=
  bool_decide (max_uses c ≤ current_uses c).

(** The redemption contract in the words of the design document, the
    test for exhaustion left open: an unknown code is NOT_FOUND, an
    exhausted coupon is EXHAUSTED, a coupon the caller has a record for
    is ALREADY_REDEEMED, and otherwise the call adds one to [granted] and
    one record for the pair, and returns the coupon's discount. *)
Definition tryGrant_contract (exhausted : coupon → bool)
    (uid : Z) (code : string) (db : DB) (out : response * DB) : Prop :=
  match coupons db !! code with
  | None => error_of out.1 = Some NOT_FOUND
  | Some c =>
      if exhausted c then error_of out.1 = Some EXHAUSTED
      else if redeemed_by uid code db
      then error_of out.1 = Some ALREADY_REDEEMED
      else out.1 = CouponApplied (discount c) ∧
           granted code out.2 = granted code db + 1 ∧
           ∃ r, coupon_redemptions out.2 = coupon_redemptions db ++ [r] ∧
                red_user_id r = uid ∧ coupon_code r = code
  end.

(** ** Databases and runs used as examples *)

(** Every request first runs both checks, then every request commits. *)
Definition checks_then_commits (n : nat) : list nat :=
  seq 0 n ++ seq 0 n ++ seq 0 n.

(** A coupon for a single use and two customers. *)
Definition single_use_db : DB := {|
  users := {[ 1 := {| email := "customer@example.com";
                      password_hash := "hashed_secret" |};
              2 := {| email := "second@example.com";
                      password_hash := "hashed_secret" |} ]};
  orders := ∅;
  coupons := {[ "VIP1" := {| discount := 10; max_uses := 1;
                             current_uses := 0 |} ]};
  coupon_redemptions := []
|}.

(** The seeded shop with the counter of FLASH50 past its limit. *)
Definition overfull_db : DB :=
  set_coupons seed_db
    {[ "FLASH50" := {| discount := 50; max_uses := 100;
                       current_uses := 101 |} ]}.

(** The seeded shop after 101 requests of customer 1 for FLASH50, all
    of which ran their checks before any of them committed. *)
Definition raced : system :=
  run (checks_then_commits 101)
    (replicate 101
       (redeem_request NoFault (authenticate (Some 1) seed_db) "FLASH50"),
     seed_db).

Definition raced_db : DB := raced.2.

(** An order that was cancelled by the back office. *)
Definition cancelled_db : DB :=
  set_orders seed_db
    {[ 7 := {| user_id := 1; total_amount := 500;
               order_status := CANCELLED |} ]}.

(** The checkout, payment and shipment of one order in the seeded shop,
    followed by a second payment and a second shipment. *)
Definition paid_twice : list request :=
  [Checkout (Some 1) (Some 500); Payment 1; Ship 1; Payment 1; Ship 1].

(** The seeded shop after the checkout and the payment of one order. *)
Definition paid_db : DB := (serve (take 2 paid_twice) seed_db).2.

(** Two orders of the same customer, both paid. *)
Definition two_paid_db : DB :=
  (serve [Checkout (Some 1) (Some 500); Checkout (Some 1) (Some 120);
          Payment 1; Payment 2] seed_db).2.


(** ** Schema provisioning *)

Definition set_users (db : DB) (us : gmap Z user) : DB :=
  {| users := us; orders := orders db; coupons := coupons db;
     coupon_redemptions := coupon_redemptions db |}.

(** A database file in which [CREATE TABLE IF NOT EXISTS] has just made
    the four tables. *)
Definition empty_db : DB :=
  {| users := ∅; orders := ∅; coupons := ∅; coupon_redemptions := [] |}.

Definition next_user_id (us : gmap Z user) : Z :=
  1 + max_rowid (map_to_list us).*1.

(** [users.email] is declared [UNIQUE]. *)
Definition email_taken (e : string) (us : gmap Z user) : bool :=
  bool_decide (Exists (λ iu, email iu.2 = e) (map_to_list us)).

Definition seed_coupon : coupon :=
  {| discount := 50; max_uses := 100; current_uses := 0 |}.

Definition seed_user : user :=
  {| email := "customer@example.com"; password_hash := "hashed_secret" |}.

(** [init_db] on a database whose tables may already hold rows.  The two
    seed inserts share one [try]: an [IntegrityError] from the first (the
    code FLASH50 is there) skips the second, one from the second (the
    e-mail is there) leaves the first in place; then comes the commit. *)
Definition init_db (db : DB) : DB :=
  match coupons db !! "FLASH50" with
  | Some _ => db
  | None =>
      let db1 := set_coupons db (<["FLASH50" := seed_coupon]> (coupons db)) in
      if email_taken "customer@example.com" (users db) then db1
      else set_users db1
             (<[next_user_id (users db) := seed_user]> (users db))
  end.

(** ** Further notions *)

(** The order ids are those of a table filled by inserts that name no
    id: positive, and below the largest 64-bit integer, at which SQLite
    stops counting up. *)
Definition usual_order_ids (db : DB) : Prop :=
  ∀ j, is_Some (orders db !! j) → 0 < j < 2 ^ 63 - 1.

(** Two accounts and no coupon yet: [init_db] will seed both tables. *)
Definition two_accounts_db : DB := {|
  users := {[ 1 := {| email := "alice@example.com";
                      password_hash := "hash_a" |};
              2 := {| email := "bob@example.com";
                      password_hash := "hash_b" |} ]};
  orders := ∅; coupons := ∅; coupon_redemptions := []
|}.

(** The e-mail of the default account in use under another id, and no
    coupon yet: [init_db] will seed the coupon only. *)
Definition taken_email_db : DB := {|
  users := {[ 5 := {| email := "customer@example.com";
                      password_hash := "changed" |};
              6 := {| email := "bob@example.com";
                      password_hash := "hash_b" |} ]};
  orders := ∅; coupons := ∅; coupon_redemptions := []
|}.

(** No two accounts share an e-mail address. *)
Definition unique_emails (db : DB) : Prop :=
  ∀ i j u v, users db !! i = Some u → users db !! j = Some v →
    email u = email v → i = j.

(** Every order belongs to an account, and every redemption row names an
    account and a coupon. *)
Definition references_hold (db : DB) : Prop :=
  (∀ j o, orders db !! j = Some o → is_Some (users db !! user_id o)) ∧
  (∀ r, r ∈ coupon_redemptions db →
     is_Some (users db !! red_user_id r) ∧
     is_Some (coupons db !! coupon_code r)).

(** The row ids of the redemptions are pairwise distinct. *)
Definition unique_redemption_ids (db : DB) : Prop :=
  NoDup (red_id <$> coupon_redemptions db).





(** What a redemption request is made of: the fault the storage has in
    store for it, its [X-User-ID] header and the coupon code. *)
Definition redeem_args : Type := fault * option Z * string.

Definition as_request (a : redeem_args) : request :=
  Redeem a.1.1 a.1.2 a.2.

(** The request in flight, [authenticate] having run on [db]. *)
Definition as_worker (db : DB) (a : redeem_args) : worker :=
  redeem_request a.1.1 (authenticate a.1.2 db) a.2.

(** The schedule that lets each of [n] requests take its three steps
    before the next one starts. *)
Definition one_at_a_time (first n : nat) : list nat :=
  i ← seq first n; [i; i; i].

(** * Properties *)

(** ** Replies *)

(** No reply of the application stands for a failed verification or for
    a rejected input: the handlers have neither. *)
Lemma no_verification_no_validation (r : response) :
  error_of r ≠ Some VERIFICATION_FAILED ∧
  error_of r ≠ Some VALIDATION_ERROR.
Proof. by destruct r. Qed.

(** ** Row ids and record updates *)

Lemma max_rowid_ge (ids : list Z) (i : Z) : i ∈ ids → i ≤ max_rowid ids.
Proof.
  induction 1 as [i ids | i j ids _ IH]; simpl; lia.
Qed.

Lemma max_rowid_nonneg (ids : list Z) : 0 ≤ max_rowid ids.
Proof. induction ids; simpl; lia. Qed.

Lemma max_rowid_in (ids : list Z) : max_rowid ids = 0 ∨ max_rowid ids ∈ ids.
Proof.
  induction ids as [| i ids [IH | IH]]; simpl; [by left | |].
  - destruct (Z.max_spec i (max_rowid ids)) as [[_ ->] | [_ ->]];
      [by left | right; by left].
  - right. destruct (Z.max_spec i (max_rowid ids)) as [[_ ->] | [_ ->]];
      [by right | by left].
Qed.

(** On a table with the usual ids the new id is a usual id too, or the
    largest integer. *)
Lemma next_order_id_usual (db : DB) :
  usual_order_ids db → 0 < next_order_id (orders db) ≤ 2 ^ 63 - 1.
Proof.
  intros Husual. unfold next_order_id.
  pose proof (max_rowid_nonneg (map_to_list (orders db)).*1) as Hnonneg.
  destruct (max_rowid_in (map_to_list (orders db)).*1) as [-> | Hin];
    [done |].
  apply list_elem_of_fmap in Hin as ([j o] & Hmax & Hin).
  apply elem_of_map_to_list in Hin. cbn [fst] in Hmax.
  destruct (Husual j) as [_ Hj]; [by eexists |]. lia.
Qed.

Lemma next_order_id_fresh (os : gmap Z order) : os !! next_order_id os = None.
Proof.
  destruct (os !! next_order_id os) as [o|] eqn:Hlook; [exfalso | done].
  apply elem_of_map_to_list in Hlook.
  assert (next_order_id os ∈ (map_to_list os).*1) as Hin.
  { apply list_elem_of_fmap. by exists (next_order_id os, o). }
  apply max_rowid_ge in Hin. unfold next_order_id in Hin. lia.
Qed.

Lemma set_orders_same (db : DB) : set_orders db (orders db) = db.
Proof. by destruct db. Qed.

Lemma update_order_status_lookup st order_id db j :
  orders (update_order_status st order_id db) !! j =
  if decide (order_id = j) then set_status st <$> orders db !! order_id
  else orders db !! j.
Proof. unfold update_order_status; simpl. apply lookup_alter. Qed.

Lemma update_order_status_missing st order_id db :
  orders db !! order_id = None → update_order_status st order_id db = db.
Proof.
  intros Hnone. unfold update_order_status.
  replace (alter (set_status st) order_id (orders db)) with (orders db).
  - apply set_orders_same.
  - apply map_eq. intros j. rewrite lookup_alter.
    case_decide; [subst; by rewrite Hnone | done].
Qed.

(** ** Payment confirmation *)

(** What [process_payment] does to every order id: no reply but success,
    and the order, if there is one, is PAID afterwards whatever it was. *)
Lemma process_payment_always_succeeds order_id db :
  (process_payment order_id db).1 = PaymentSuccessful PAID ∧
  status_in order_id (process_payment order_id db).2 =
    (λ _, PAID) <$> status_in order_id db.
Proof.
  split; [done |]. unfold status_in, process_payment; simpl.
  rewrite lookup_alter_eq. by destruct (orders db !! order_id).
Qed.

Lemma process_payment_unknown_order order_id db :
  orders db !! order_id = None →
  process_payment order_id db = (PaymentSuccessful PAID, db).
Proof.
  intros Hnone. unfold process_payment.
  by rewrite update_order_status_missing.
Qed.

(** C5 (markPaid): a PENDING order becomes PAID, but a payment for an
    order id that does not exist is not refused with NOT_FOUND: in the
    seeded shop, which has no orders, the payment of order 42 is answered
    with status 200 and "PAID", no error kind at all, and the store is
    left as it is. *)
Theorem process_payment_no_not_found :
  orders seed_db !! 42 = None ∧
  (process_payment 42 seed_db).1 = PaymentSuccessful PAID ∧
  http_status (process_payment 42 seed_db).1 = 200 ∧
  error_of (process_payment 42 seed_db).1 ≠ Some NOT_FOUND ∧
  (process_payment 42 seed_db).2 = seed_db ∧
  (ship_order 42 seed_db).1 = OrderNotFound.
Proof.
  assert (orders seed_db !! 42 = None) as Hnone by reflexivity.
  rewrite (process_payment_unknown_order 42 seed_db Hnone).
  repeat split; done.
Qed.

(** C6 (terminal states): a payment confirmation moves an order out of
    SHIPPED, and out of CANCELLED, back to PAID.  In the seeded shop,
    order 1 is created, paid and shipped; the next payment request puts
    it back to PAID, which is no step of the lifecycle, and the order is
    then shipped a second time. *)
Theorem process_payment_leaves_terminal :
  let shipped := (serve (take 3 paid_twice) seed_db).2 in
  status_in 1 shipped = Some SHIPPED ∧
  status_in 1 (process_payment 1 shipped).2 = Some PAID ∧
  ¬ lifecycle_step SHIPPED PAID ∧
  (serve paid_twice seed_db).1 =
    [OrderCreated 1 PENDING; PaymentSuccessful PAID;
     OrderShipped SHIPPED "TRACK-12345"; PaymentSuccessful PAID;
     OrderShipped SHIPPED "TRACK-12345"] ∧
  status_in 7 cancelled_db = Some CANCELLED ∧
  status_in 7 (process_payment 7 cancelled_db).2 = Some PAID.
Proof.
  repeat split; try reflexivity.
  inversion 1.
Qed.

(** ** Fulfillment *)

Lemma ship_order_found order_id db o :
  orders db !! order_id = Some o →
  ship_order order_id db =
    if bool_decide (terminal (order_status o))
    then (OrderCannotBeShipped, db)
    else (OrderShipped SHIPPED "TRACK-12345",
          update_order_status SHIPPED order_id db).
Proof. intros Hlook. unfold ship_order. by rewrite Hlook. Qed.

(** C3, as stated, fails: a freshly created order, still PENDING, is not
    refused with INVALID_STATE; it is shipped. *)
Lemma ship_order_ships_pending :
  let fresh := (handle (Checkout (Some 1) (Some 500)) seed_db).2 in
  status_in 1 fresh = Some PENDING ∧
  (ship_order 1 fresh).1 = OrderShipped SHIPPED "TRACK-12345" ∧
  error_of (ship_order 1 fresh).1 ≠ Some INVALID_STATE ∧
  status_in 1 (ship_order 1 fresh).2 = Some SHIPPED.
Proof. repeat split; done. Qed.

(** C3, amended (markShipped): shipping an order that is PAID, or still
    PENDING, succeeds and leaves it SHIPPED, the other orders and its own
    owner and amount untouched; shipping an order that is SHIPPED or
    CANCELLED fails with INVALID_STATE and changes nothing. *)
Theorem ship_order_transitions (order_id : Z) (db : DB) (o : order) :
  orders db !! order_id = Some o →
  match order_status o with
  | PENDING | PAID =>
      (ship_order order_id db).1 = OrderShipped SHIPPED "TRACK-12345" ∧
      orders (ship_order order_id db).2 !! order_id =
        Some (set_status SHIPPED o) ∧
      ∀ j, j ≠ order_id →
        orders (ship_order order_id db).2 !! j = orders db !! j
  | SHIPPED | CANCELLED =>
      error_of (ship_order order_id db).1 = Some INVALID_STATE ∧
      (ship_order order_id db).2 = db
  end.
Proof.
  intros Hlook. rewrite (ship_order_found _ _ _ Hlook).
  destruct (order_status o) eqn:Hst;
    match goal with
    | |- context [bool_decide ?P] =>
        let b := eval vm_compute in (bool_decide P) in
        change (bool_decide P) with b; cbv iota
    end; cbn [fst snd]; try done.
  all: split; [done |]; split;
    [ rewrite update_order_status_lookup, decide_True, Hlook by done; done
    | intros j Hj; rewrite update_order_status_lookup, decide_False by done;
      done ].
Qed.

(** The theorem at the paid order of the seeded shop. *)
Lemma ship_order_transitions_witness :
  (ship_order 1 paid_db).1 = OrderShipped SHIPPED "TRACK-12345" ∧
  orders (ship_order 1 paid_db).2 !! 1 =
    Some {| user_id := 1; total_amount := 500; order_status := SHIPPED |} ∧
  ∀ j, j ≠ 1 → orders (ship_order 1 paid_db).2 !! j = orders paid_db !! j.
Proof.
  exact (ship_order_transitions 1 paid_db
           {| user_id := 1; total_amount := 500; order_status := PAID |}
           eq_refl).
Defined.

(** C10 (tracking token): every fulfillment call that succeeds returns the
    token "TRACK-12345"; the token is not empty, and two successful calls,
    for whatever orders in whatever stores, return the same one. *)
Theorem tracking_token_is_constant (order1 order2 : Z) (db1 db2 : DB) :
  error_of (ship_order order1 db1).1 = None →
  error_of (ship_order order2 db2).1 = None →
  tracking_of (ship_order order1 db1).1 = Some "TRACK-12345" ∧
  tracking_of (ship_order order2 db2).1 =
    tracking_of (ship_order order1 db1).1 ∧
  "TRACK-12345" ≠ "".
Proof.
  assert (∀ order_id db, error_of (ship_order order_id db).1 = None →
            tracking_of (ship_order order_id db).1 = Some "TRACK-12345")
    as Htoken.
  { intros order_id db. unfold ship_order.
    destruct (orders db !! order_id); [case_bool_decide |]; done. }
  intros H1 H2. rewrite (Htoken _ _ H1), (Htoken _ _ H2). done.
Qed.

(** The theorem at two orders shipped one after the other. *)
Lemma tracking_token_is_constant_witness :
  (1 ≠ 2) ∧
  tracking_of (ship_order 1 two_paid_db).1 = Some "TRACK-12345" ∧
  tracking_of (ship_order 2 (ship_order 1 two_paid_db).2).1 =
    tracking_of (ship_order 1 two_paid_db).1 ∧
  "TRACK-12345" ≠ "".
Proof.
  split; [lia |].
  apply (tracking_token_is_constant 1 2 two_paid_db
           (ship_order 1 two_paid_db).2); reflexivity.
Defined.

(** ** The redemption transaction *)

Lemma apply_coupon_Some f uid code db db' :
  apply_coupon f uid code db = Some db' ↔
  f = NoFault ∧ db' = insert_redemption uid code (increment_uses code db).
Proof.
  unfold apply_coupon, raising.
  destruct f; simpl; split; try (intros [? ?]); try done; naive_solver.
Qed.

Lemma apply_coupon_NoFault uid code db :
  apply_coupon NoFault uid code db =
    Some (insert_redemption uid code (increment_uses code db)).
Proof. by apply apply_coupon_Some. Qed.

(** The four ways through [redeem_coupon] for a caller who is logged in,
    as rewriting rules. *)
Lemma redeem_coupon_unknown f uid code db :
  coupons db !! code = None →
  redeem_coupon f (Some uid) code db = (InvalidCoupon, db).
Proof. intros Hc. unfold redeem_coupon. by rewrite Hc. Qed.

Lemma redeem_coupon_exhausted f uid code db c :
  coupons db !! code = Some c → max_uses c ≤ current_uses c →
  redeem_coupon f (Some uid) code db = (CouponExhausted, db).
Proof.
  intros Hc Hfull. unfold redeem_coupon. by rewrite Hc, bool_decide_true.
Qed.

Lemma redeem_coupon_used f uid code db c :
  coupons db !! code = Some c → current_uses c < max_uses c →
  select_redemptions uid code (coupon_redemptions db) ≠ [] →
  redeem_coupon f (Some uid) code db = (CouponAlreadyUsed, db).
Proof.
  intros Hc Hfree Hused. unfold redeem_coupon.
  rewrite Hc, bool_decide_false by lia.
  destruct (select_redemptions _ _ _); done.
Qed.

Lemma redeem_coupon_granted uid code db c :
  coupons db !! code = Some c → current_uses c < max_uses c →
  select_redemptions uid code (coupon_redemptions db) = [] →
  redeem_coupon NoFault (Some uid) code db =
    (CouponApplied (discount c),
     insert_redemption uid code (increment_uses code db)).
Proof.
  intros Hc Hfree Hnew. unfold redeem_coupon.
  by rewrite Hc, bool_decide_false, Hnew, apply_coupon_NoFault by lia.
Qed.

Lemma granted_increment_uses code db c :
  coupons db !! code = Some c →
  granted code (increment_uses code db) = current_uses c + 1.
Proof.
  intros Hc. unfold granted, increment_uses; simpl.
  by rewrite lookup_alter_eq, Hc.
Qed.

(** A request run alone takes its three steps and gives the reply and
    the database of [redeem_coupon]. *)
Lemma redeem_coupon_steps f g_user code db :
  run [0; 0; 0]%nat ([redeem_request f g_user code], db) =
    ([at_pc (redeem_request f g_user code)
        (Replied (redeem_coupon f g_user code db).1)],
     (redeem_coupon f g_user code db).2).
Proof.
  unfold redeem_coupon.
  destruct g_user as [uid|]; [| reflexivity].
  destruct (coupons db !! code) as [c|] eqn:Hc;
    [destruct (bool_decide (max_uses c ≤ current_uses c)) eqn:Hfull;
     [| destruct (head (select_redemptions uid code (coupon_redemptions db)))
          eqn:Hhead;
        [| destruct (apply_coupon f uid code db) eqn:Happly]] |];
    repeat (cbn -[select_redemptions apply_coupon];
            rewrite ?Hc, ?Hfull, ?Hhead, ?Happly); reflexivity.
Qed.

(** ** What a redemption attempt writes *)

Lemma worker_step_frame (w : worker) (db : DB) :
  (worker_step w db).2 = db ∨
  ∃ uid c, w_pc w = Validating uid c ∧
    reply (worker_step w db).1 = Some (CouponApplied (discount c)) ∧
    (worker_step w db).2 =
      insert_redemption uid (w_code w) (increment_uses (w_code w) db).
Proof.
  unfold worker_step.
  destruct (w_pc w) as [| uid c | uid c | r] eqn:Hpc; simpl.
  - left. destruct (w_user w); [| done].
    destruct (coupons db !! w_code w); [case_bool_decide |]; done.
  - left. by destruct (head _).
  - destruct (apply_coupon _ _ _ _) as [db'|] eqn:Happly; [| by left].
    apply apply_coupon_Some in Happly as [_ ->]. right. by exists uid, c.
  - by left.
Qed.

(** C8 (frame): a redemption attempt that does not answer "applied",
    whether it was refused as unauthorized, unknown, exhausted or already
    used, or failed in the update, the insert or the commit, leaves the
    whole database as it was; one that answers "applied" has raised the
    counter of the coupon by exactly one, its discount and limit and the
    other coupons unchanged, has appended exactly one row, for the caller
    and the code, to the redemptions, and has left the orders and the
    users alone.  The same holds of each step of a request running among
    others: a step writes nothing, or it is the commit of a successful
    attempt, which appends one row and adds one to the counter of the
    coupon the request names. *)
Theorem redeem_coupon_frame (f : fault) (g_user : option Z) (code : string)
    (db : DB) :
  (match (redeem_coupon f g_user code db).1 with
   | CouponApplied d =>
       ∃ uid c r, g_user = Some uid ∧ coupons db !! code = Some c ∧
         d = discount c ∧
         coupons (redeem_coupon f g_user code db).2 =
           <[code := {| discount := discount c; max_uses := max_uses c;
                        current_uses := current_uses c + 1 |}]>
             (coupons db) ∧
         granted code (redeem_coupon f g_user code db).2 =
           granted code db + 1 ∧
         coupon_redemptions (redeem_coupon f g_user code db).2 =
           coupon_redemptions db ++ [r] ∧
         red_user_id r = uid ∧ coupon_code r = code ∧
         orders (redeem_coupon f g_user code db).2 = orders db ∧
         users (redeem_coupon f g_user code db).2 = users db
   | _ => (redeem_coupon f g_user code db).2 = db
   end) ∧
  (∀ w, (worker_step w db).2 = db ∨
        ∃ uid c r, w_pc w = Validating uid c ∧
          reply (worker_step w db).1 = Some (CouponApplied (discount c)) ∧
          coupon_redemptions (worker_step w db).2 =
            coupon_redemptions db ++ [r] ∧
          red_user_id r = uid ∧ coupon_code r = w_code w ∧
          (∀ code',
             coupons (worker_step w db).2 !! code' =
               if decide (w_code w = code')
               then (λ c', {| discount := discount c';
                              max_uses := max_uses c';
                              current_uses := current_uses c' + 1 |}) <$>
                      coupons db !! w_code w
               else coupons db !! code') ∧
          orders (worker_step w db).2 = orders db ∧
          users (worker_step w db).2 = users db).
Proof.
  split.
  - unfold redeem_coupon.
    destruct g_user as [uid|]; [| done].
    destruct (coupons db !! code) as [c|] eqn:Hc; [| done].
    case_bool_decide; [done |].
    destruct (head _); [done |].
    destruct (apply_coupon f uid code db) as [db'|] eqn:Happly; [| done].
    apply apply_coupon_Some in Happly as [_ ->]. cbn [fst snd].
    exists uid, c. eexists. repeat split; try done.
    + by apply (alter_alt_Some use_once).
    + change (granted code (increment_uses code db) = granted code db + 1).
      rewrite (granted_increment_uses _ _ c Hc). unfold granted.
      by rewrite Hc.
  - intros w.
    destruct (worker_step_frame w db) as [Hsame | (uid & c & Hpc & Hr & ->)];
      [by left | right].
    exists uid, c. eexists. repeat split; try done.
    intros code'. apply (lookup_alter use_once).
Qed.

(** The theorem at the first redemption in the seeded shop: the counter
    of FLASH50 goes from 0 to 1 and the table gets its first row. *)
Lemma redeem_coupon_frame_witness :
  (redeem_coupon NoFault (Some 1) "FLASH50" seed_db).1 = CouponApplied 50 ∧
  granted "FLASH50" seed_db = 0 ∧
  granted "FLASH50" (redeem_coupon NoFault (Some 1) "FLASH50" seed_db).2 = 1 ∧
  length (coupon_redemptions
            (redeem_coupon NoFault (Some 1) "FLASH50" seed_db).2) = 1%nat.
Proof.
  destruct (redeem_coupon_frame NoFault (Some 1) "FLASH50" seed_db)
    as [Hframe _].
  change (redeem_coupon NoFault (Some 1) "FLASH50" seed_db).1
    with (CouponApplied 50) in Hframe. cbv iota in Hframe.
  destruct Hframe as (uid & c & r & _ & _ & _ & _ & Hgranted & Hrows & _).
  split; [reflexivity |]. split; [reflexivity |].
  split; [rewrite Hgranted; reflexivity | rewrite Hrows; reflexivity].
Defined.

(** ** The redemption contract *)

(** The grant, in the terms of the contract. *)
Lemma grant_meets_contract uid code db c :
  coupons db !! code = Some c →
  granted code (insert_redemption uid code (increment_uses code db)) =
    granted code db + 1 ∧
  ∃ r, coupon_redemptions (insert_redemption uid code (increment_uses code db)) =
         coupon_redemptions db ++ [r] ∧
       red_user_id r = uid ∧ coupon_code r = code.
Proof.
  intros Hc. split; [| by eexists].
  change (granted code (increment_uses code db) = granted code db + 1).
  rewrite (granted_increment_uses _ _ c) by done.
  unfold granted. by rewrite Hc.
Qed.

(** On a store where every counter is within its limit, the contract
    holds as the design document words it, with "equals" for the test. *)
Lemma redeem_coupon_contract_within_capacity uid code db :
  within_capacity db →
  tryGrant_contract granted_equals_capacity uid code db
    (redeem_coupon NoFault (Some uid) code db).
Proof.
  intros Hwithin.
  unfold tryGrant_contract, granted_equals_capacity, redeemed_by.
  destruct (coupons db !! code) as [c|] eqn:Hc;
    [| by rewrite redeem_coupon_unknown].
  specialize (Hwithin code c Hc).
  case_bool_decide as Hfull.
  - rewrite (redeem_coupon_exhausted _ _ _ _ c); [done.. | lia].
  - case_bool_decide as Hused.
    + by rewrite (redeem_coupon_used _ _ _ _ c) by (done || lia).
    + rewrite (redeem_coupon_granted _ _ _ c) by (done || lia).
      split; [done |]. by apply (grant_meets_contract _ _ _ c).
Qed.

(** The store that 101 overlapping requests of customer 1 leave behind
    has the coupon table of [overfull_db], and rows for customer 1. *)
Lemma raced_coupons : coupons raced_db = coupons overfull_db.
Proof. vm_compute. reflexivity. Qed.

Lemma raced_redeemed : redeemed_by 1 "FLASH50" raced_db = true.
Proof. vm_compute. reflexivity. Qed.

(** C7, as stated, fails once a counter is past its limit.  With the
    counter of FLASH50 at 101 for a limit of 100, granted does not equal
    capacity and the caller has no record, so the contract promises a
    grant; the call answers "exhausted".  The same in the store that 101
    overlapping requests of customer 1 leave behind: there the contract
    promises ALREADY_REDEEMED. *)
Lemma redeem_coupon_exhausted_above_capacity :
  (coupons overfull_db !! "FLASH50" =
     Some {| discount := 50; max_uses := 100; current_uses := 101 |} ∧
   redeemed_by 1 "FLASH50" overfull_db = false ∧
   redeem_coupon NoFault (Some 1) "FLASH50" overfull_db =
     (CouponExhausted, overfull_db) ∧
   ¬ tryGrant_contract granted_equals_capacity 1 "FLASH50" overfull_db
       (redeem_coupon NoFault (Some 1) "FLASH50" overfull_db)) ∧
  (coupons raced_db = coupons overfull_db ∧
   redeemed_by 1 "FLASH50" raced_db = true ∧
   (redeem_coupon NoFault (Some 1) "FLASH50" raced_db).1 = CouponExhausted ∧
   ¬ tryGrant_contract granted_equals_capacity 1 "FLASH50" raced_db
       (redeem_coupon NoFault (Some 1) "FLASH50" raced_db)).
Proof.
  assert (coupons overfull_db !! "FLASH50" =
            Some {| discount := 50; max_uses := 100; current_uses := 101 |})
    as Hc by reflexivity.
  assert (redeem_coupon NoFault (Some 1) "FLASH50" raced_db =
            (CouponExhausted, raced_db)) as Hreply.
  { apply (redeem_coupon_exhausted _ _ _ _
             {| discount := 50; max_uses := 100; current_uses := 101 |}).
    - rewrite raced_coupons. exact Hc.
    - simpl. lia. }
  split; [split; [exact Hc | split; [reflexivity | split; [reflexivity |]]]
         | split; [exact raced_coupons | split; [exact raced_redeemed | split]]].
  - unfold tryGrant_contract. rewrite Hc. cbv beta iota.
    change (granted_equals_capacity _) with false.
    change (redeemed_by 1 "FLASH50" overfull_db) with false.
    cbv iota. intros [Hrep _]. discriminate Hrep.
  - rewrite Hreply. reflexivity.
  - unfold tryGrant_contract.
    rewrite raced_coupons, Hc, raced_redeemed, Hreply. cbv beta iota.
    change (granted_equals_capacity _) with false. cbv iota.
    cbn [fst error_of]. discriminate.
Qed.

(** C7, amended (sequential redemption): a call for an unknown code
    answers NOT_FOUND; for a coupon whose granted count has reached or
    passed its capacity, EXHAUSTED; for a coupon the caller already has a
    record for, ALREADY_REDEEMED; otherwise it adds exactly one to granted,
    appends exactly one record for the caller and the code, and returns
    the coupon's discount. *)
Theorem redeem_coupon_meets_contract (uid : Z) (code : string) (db : DB) :
  tryGrant_contract granted_reaches_capacity uid code db
    (redeem_coupon NoFault (Some uid) code db).
Proof.
  unfold tryGrant_contract, granted_reaches_capacity, redeemed_by.
  destruct (coupons db !! code) as [c|] eqn:Hc;
    [| by rewrite redeem_coupon_unknown].
  case_bool_decide as Hfull.
  - by rewrite (redeem_coupon_exhausted _ _ _ _ c).
  - case_bool_decide as Hused.
    + by rewrite (redeem_coupon_used _ _ _ _ c) by (done || lia).
    + rewrite (redeem_coupon_granted _ _ _ c) by (done || lia).
      split; [done |]. by apply (grant_meets_contract _ _ _ c).
Qed.

(** ** Requests served in sequence: what is preserved *)

(** The only write of [redeem_coupon] is the grant, and it is made only
    past both checks. *)
Lemma redeem_coupon_writes f g_user code db :
  redeem_coupon f g_user code db = ((redeem_coupon f g_user code db).1, db) ∨
  ∃ uid c, g_user = Some uid ∧ coupons db !! code = Some c ∧
    current_uses c < max_uses c ∧
    select_redemptions uid code (coupon_redemptions db) = [] ∧
    redeem_coupon f g_user code db =
      (CouponApplied (discount c),
       insert_redemption uid code (increment_uses code db)).
Proof.
  unfold redeem_coupon.
  destruct g_user as [uid|]; [| by left].
  destruct (coupons db !! code) as [c|] eqn:Hc; [| by left].
  case_bool_decide as Hfull; [by left |].
  destruct (head _) eqn:Hhead; [by left |].
  destruct (apply_coupon f uid code db) as [db'|] eqn:Happly; [| by left].
  apply apply_coupon_Some in Happly as [_ ->]. apply head_None in Hhead.
  right. exists uid, c. repeat split; try done. lia.
Qed.

Lemma set_status_same (o : order) : set_status (order_status o) o = o.
Proof. by destruct o. Qed.

Lemma handle_keeps_order rq db j o :
  orders db !! j = Some o →
  ∃ st, orders (handle rq db).2 !! j = Some (set_status st o).
Proof.
  intros Hj.
  assert (∃ st, orders db !! j = Some (set_status st o)) as Hsame.
  { exists (order_status o). by rewrite set_status_same. }
  destruct rq as [h total | order_id | order_id | f h code]; cbn [handle].
  - unfold create_order. destruct (authenticate h db) as [uid|]; [| done].
    destruct (fits_int64 _); [| done]. cbn [snd set_orders orders].
    rewrite lookup_insert_ne; [done |].
    intros Heq. rewrite <- Heq, next_order_id_fresh in Hj. done.
  - unfold process_payment. cbn [snd].
    rewrite update_order_status_lookup. case_decide; [| done].
    subst. rewrite Hj. by exists PAID.
  - unfold ship_order. destruct (orders db !! order_id); [| done].
    case_bool_decide; [done |]. cbn [snd].
    rewrite update_order_status_lookup. case_decide; [| done].
    subst. rewrite Hj. by exists SHIPPED.
  - destruct (redeem_coupon_writes f (authenticate h db) code db)
      as [-> | (uid & c & _ & _ & _ & _ & ->)]; done.
Qed.

Lemma serve_keeps_order rqs db j o :
  orders db !! j = Some o →
  ∃ st, orders (serve rqs db).2 !! j = Some (set_status st o).
Proof.
  revert db o. induction rqs as [| rq rqs IH]; intros db o Hj; simpl.
  - exists (order_status o). by rewrite set_status_same.
  - destruct (handle_keeps_order rq db j o Hj) as [st1 H1].
    destruct (handle rq db) as [r db1]. simpl in H1.
    destruct (IH db1 _ H1) as [st2 H2].
    destruct (serve rqs db1) as [rs db2]. simpl in *.
    exists st2. by rewrite H2.
Qed.

(** ** Order creation *)

(** C9, as stated, fails: a checkout with a negative total is accepted
    and the negative amount is stored. *)
Lemma create_order_stores_negative_total :
  (handle (Checkout (Some 1) (Some (-100))) seed_db).1 =
    OrderCreated 1 PENDING ∧
  orders (handle (Checkout (Some 1) (Some (-100))) seed_db).2 !! 1 =
    Some {| user_id := 1; total_amount := -100; order_status := PENDING |} ∧
  ¬ (0 ≤ -100).
Proof. repeat split; [reflexivity.. | lia]. Qed.

(** C9, amended (order creation): in a store whose order ids are the
    usual ones, a checkout by a logged-in customer yields a new order in
    state PENDING whose amount is the integer given as the request's
    total, 0 when the request has none, provided it fits the store's
    64-bit integers; and the amount, like the owner, of every order in
    the store is fixed at creation: no sequence of later requests changes
    it. *)
Theorem create_order_amount_fixed (db : DB) (uid : Z) (total : option Z)
    (rqs : list request) :
  usual_order_ids db →
  fits_int64 (default 0 total) = true →
  let order_id := next_order_id (orders db) in
  let created := create_order (Some uid) total db in
  0 < order_id ≤ 2 ^ 63 - 1 ∧
  orders db !! order_id = None ∧
  created.1 = OrderCreated order_id PENDING ∧
  orders created.2 !! order_id =
    Some {| user_id := uid; total_amount := default 0 total;
            order_status := PENDING |} ∧
  ∀ j o, orders created.2 !! j = Some o →
    total_amount <$> orders (serve rqs created.2).2 !! j =
      Some (total_amount o) ∧
    user_id <$> orders (serve rqs created.2).2 !! j = Some (user_id o).
Proof.
  intros Husual Hfits order_id created.
  split; [by apply next_order_id_usual |].
  split; [apply next_order_id_fresh |].
  subst created. unfold create_order. rewrite Hfits. cbn [fst snd].
  split; [done |]. split; [apply lookup_insert_eq |].
  intros j o Hj.
  destruct (serve_keeps_order rqs _ j o Hj) as [st ->]. done.
Qed.

(** The theorem at a second checkout, of 120, in the shop that holds the
    paid order 1, followed by the payment and the shipment of the new
    order. *)
Lemma create_order_amount_fixed_witness :
  usual_order_ids paid_db ∧
  0 < 2 ≤ 2 ^ 63 - 1 ∧
  orders paid_db !! 2 = None ∧
  (create_order (Some 1) (Some 120) paid_db).1 = OrderCreated 2 PENDING ∧
  orders (create_order (Some 1) (Some 120) paid_db).2 !! 2 =
    Some {| user_id := 1; total_amount := 120; order_status := PENDING |} ∧
  ∀ j o, orders (create_order (Some 1) (Some 120) paid_db).2 !! j = Some o →
    total_amount <$>
      orders (serve [Payment 2; Ship 2]
                (create_order (Some 1) (Some 120) paid_db).2).2 !! j =
      Some (total_amount o) ∧
    user_id <$>
      orders (serve [Payment 2; Ship 2]
                (create_order (Some 1) (Some 120) paid_db).2).2 !! j =
      Some (user_id o).
Proof.
  assert (usual_order_ids paid_db) as Husual.
  { intros j [o Hj].
    assert (orders paid_db =
              {[ 1 := {| user_id := 1; total_amount := 500;
                         order_status := PAID |} ]}) as Horders
      by reflexivity.
    rewrite Horders in Hj. apply lookup_singleton_Some in Hj as [<- _].
    split; reflexivity. }
  split; [exact Husual |].
  exact (create_order_amount_fixed paid_db 1 (Some 120) [Payment 2; Ship 2]
           Husual eq_refl).
Defined.

(** ** One record for each user and coupon *)

Lemma select_redemptions_insert uid code uid' code' db :
  select_redemptions uid' code'
    (coupon_redemptions (insert_redemption uid code db)) =
  select_redemptions uid' code' (coupon_redemptions db) ++
    if decide (uid = uid' ∧ code = code')
    then [{| red_id := next_redemption_id (coupon_redemptions db);
             red_user_id := uid; coupon_code := code |}]
    else [].
Proof.
  unfold select_redemptions, insert_redemption; simpl.
  rewrite filter_app. by f_equal.
Qed.

Lemma handle_redemptions rq db :
  coupon_redemptions (handle rq db).2 = coupon_redemptions db ∨
  ∃ f h uid code, rq = Redeem f h code ∧
    select_redemptions uid code (coupon_redemptions db) = [] ∧
    (handle rq db).2 = insert_redemption uid code (increment_uses code db).
Proof.
  destruct rq as [h total | order_id | order_id | f h code]; cbn [handle].
  - left. unfold create_order. destruct (authenticate h db); [| done].
    by destruct (fits_int64 _).
  - by left.
  - left. unfold ship_order. destruct (orders db !! order_id); [| done].
    by case_bool_decide.
  - destruct (redeem_coupon_writes f (authenticate h db) code db)
      as [-> | (uid & c & _ & _ & _ & Hnew & ->)]; [by left |].
    right. by exists f, h, uid, code.
Qed.

Lemma handle_unique_redemptions rq db :
  unique_redemptions db → unique_redemptions (handle rq db).2.
Proof.
  intros Huniq uid' code'.
  destruct (handle_redemptions rq db)
    as [-> | (f & h & uid & code & _ & Hnew & ->)]; [apply Huniq |].
  rewrite select_redemptions_insert, length_app.
  case_decide as Heq; simpl.
  - destruct Heq as [<- <-]. change (coupon_redemptions (increment_uses code db))
      with (coupon_redemptions db). by rewrite Hnew.
  - specialize (Huniq uid' code').
    change (coupon_redemptions (increment_uses code db))
      with (coupon_redemptions db). lia.
Qed.

Lemma serve_cons rq rqs db :
  serve (rq :: rqs) db =
    ((handle rq db).1 :: (serve rqs (handle rq db).2).1,
     (serve rqs (handle rq db).2).2).
Proof.
  simpl. destruct (handle rq db) as [r db1]. simpl.
  by destruct (serve rqs db1).
Qed.

Lemma serve_unique_redemptions rqs db :
  unique_redemptions db → unique_redemptions (serve rqs db).2.
Proof.
  revert db. induction rqs as [| rq rqs IH]; intros db Huniq; [done |].
  rewrite serve_cons. cbn [snd].
  by apply IH, handle_unique_redemptions.
Qed.

(** C2, as stated, fails: after the one use of VIP1 is granted to
    customer 1, a second attempt by the same customer is answered
    EXHAUSTED, not ALREADY_REDEEMED, although the record exists. *)
Lemma second_attempt_answers_exhausted :
  let first := handle (Redeem NoFault (Some 1) "VIP1") single_use_db in
  let second := handle (Redeem NoFault (Some 1) "VIP1") first.2 in
  first.1 = CouponApplied 10 ∧
  redeemed_by 1 "VIP1" first.2 = true ∧
  second.1 = CouponExhausted ∧
  error_of second.1 ≠ Some ALREADY_REDEEMED.
Proof. repeat split; done. Qed.

(** The same customer twice at once, in the seeded shop: both requests
    pass the check for an earlier use before either writes, both are
    applied, and the table holds two rows for the pair. *)
Lemma same_user_twice_at_once :
  let rq := redeem_request NoFault (authenticate (Some 1) seed_db) "FLASH50" in
  let s := run (checks_then_commits 2) ([rq; rq], seed_db) in
  replies s = [Some (CouponApplied 50); Some (CouponApplied 50)] ∧
  length (select_redemptions 1 "FLASH50" (coupon_redemptions s.2)) = 2%nat.
Proof. split; reflexivity. Qed.

(** C2, amended (per-user uniqueness): when requests are served one
    after the other from a store with at most one Redemption Record for
    each (code, user) pair, every store they lead to has at most one
    record for each pair; and an attempt by an identity that already has a
    record for the code inserts nothing and changes nothing, answering
    ALREADY_REDEEMED while the coupon has capacity left and EXHAUSTED once
    it has none. *)
Theorem sequential_redemptions_unique (rqs : list request) (db : DB) :
  unique_redemptions db →
  unique_redemptions (serve rqs db).2 ∧
  ∀ f uid code c,
    coupons (serve rqs db).2 !! code = Some c →
    redeemed_by uid code (serve rqs db).2 = true →
    redeem_coupon f (Some uid) code (serve rqs db).2 =
      (if bool_decide (current_uses c < max_uses c)
       then CouponAlreadyUsed else CouponExhausted,
       (serve rqs db).2).
Proof.
  intros Huniq. split; [by apply serve_unique_redemptions |].
  intros f uid code c Hc Hused. apply bool_decide_eq_true in Hused.
  case_bool_decide.
  - by apply (redeem_coupon_used _ _ _ _ c).
  - apply (redeem_coupon_exhausted _ _ _ _ c); [done | lia].
Qed.

(** The theorem at the seeded shop and two attempts of customer 1. *)
Lemma sequential_redemptions_unique_witness :
  let rqs := [Redeem NoFault (Some 1) "FLASH50";
              Redeem NoFault (Some 1) "FLASH50"] in
  unique_redemptions (serve rqs seed_db).2 ∧
  ∀ f uid code c,
    coupons (serve rqs seed_db).2 !! code = Some c →
    redeemed_by uid code (serve rqs seed_db).2 = true →
    redeem_coupon f (Some uid) code (serve rqs seed_db).2 =
      (if bool_decide (current_uses c < max_uses c)
       then CouponAlreadyUsed else CouponExhausted,
       (serve rqs seed_db).2).
Proof.
  apply (sequential_redemptions_unique
           [Redeem NoFault (Some 1) "FLASH50";
            Redeem NoFault (Some 1) "FLASH50"] seed_db).
  intros uid code. simpl. lia.
Defined.

(** ** The counter and the capacity *)

Lemma coupons_insert_redemption uid code db :
  coupons (insert_redemption uid code db) = coupons db.
Proof. done. Qed.

Lemma lookup_increment_uses code code' db :
  coupons (increment_uses code db) !! code' =
    if decide (code = code') then use_once <$> coupons db !! code
    else coupons db !! code'.
Proof. unfold increment_uses; simpl. apply lookup_alter. Qed.

(** A grant leaves every limit alone and lowers no counter. *)
Lemma grant_capacity uid code code' db :
  capacity code' (insert_redemption uid code (increment_uses code db)) =
    capacity code' db.
Proof.
  unfold capacity. rewrite coupons_insert_redemption, lookup_increment_uses.
  case_decide; [subst; by destruct (coupons db !! code') | done].
Qed.

Lemma grant_granted_mono uid code code' db :
  granted code' db ≤
    granted code' (insert_redemption uid code (increment_uses code db)).
Proof.
  unfold granted. rewrite coupons_insert_redemption, lookup_increment_uses.
  case_decide; [subst; destruct (coupons db !! code'); simpl; lia | done].
Qed.

Lemma grant_within_capacity uid code c db :
  coupons db !! code = Some c → current_uses c < max_uses c →
  within_capacity db →
  within_capacity (insert_redemption uid code (increment_uses code db)).
Proof.
  intros Hc Hfree Hwithin code' c'.
  rewrite coupons_insert_redemption, lookup_increment_uses.
  case_decide; [subst code'; rewrite Hc | apply Hwithin].
  intros [= <-]. specialize (Hwithin code c Hc). simpl. lia.
Qed.

Lemma handle_db rq db :
  (handle rq db).2 = set_orders db (orders (handle rq db).2) ∨
  ∃ uid code c, coupons db !! code = Some c ∧
    current_uses c < max_uses c ∧
    (handle rq db).2 = insert_redemption uid code (increment_uses code db).
Proof.
  destruct rq as [h total | order_id | order_id | f h code]; cbn [handle].
  - left. unfold create_order. destruct (authenticate h db); [| by destruct db].
    destruct (fits_int64 _); [done | by destruct db].
  - by left.
  - left. unfold ship_order.
    destruct (orders db !! order_id); [| by destruct db].
    case_bool_decide; [by destruct db | done].
  - destruct (redeem_coupon_writes f (authenticate h db) code db)
      as [-> | (uid & c & _ & Hc & Hfree & _ & ->)].
    + left. by destruct db.
    + right. by exists uid, code, c.
Qed.

(** Served one after the other, requests keep every counter between 0
    and its limit, never lower a counter and never change a limit. *)
Lemma serve_within_capacity rqs db :
  within_capacity db → within_capacity (serve rqs db).2.
Proof.
  revert db. induction rqs as [| rq rqs IH]; intros db Hwithin; [done |].
  rewrite serve_cons. cbn [snd]. apply IH.
  destruct (handle_db rq db) as [-> | (uid & code & c & Hc & Hfree & ->)];
    [done | by eapply grant_within_capacity].
Qed.

Lemma serve_granted_monotone rqs db code :
  granted code db ≤ granted code (serve rqs db).2 ∧
  capacity code (serve rqs db).2 = capacity code db.
Proof.
  revert db. induction rqs as [| rq rqs IH]; intros db; [done |].
  rewrite serve_cons. cbn [snd].
  destruct (IH (handle rq db).2) as [Hmono ->].
  destruct (handle_db rq db) as [Hdb | (uid & code' & c & _ & _ & Hdb)];
    rewrite Hdb in Hmono |- *.
  - done.
  - rewrite grant_capacity. split; [| done].
    pose proof (grant_granted_mono uid code' code db). lia.
Qed.

(** Requests running at once never lower a counter or change a limit
    either. *)
Lemma system_step_db (s : system) (i : nat) :
  (system_step s i).2 = s.2 ∨
  ∃ uid code,
    (system_step s i).2 = insert_redemption uid code (increment_uses code s.2).
Proof.
  unfold system_step. destruct (s.1 !! i) as [w|]; [| by left].
  destruct (worker_step_frame w s.2) as [Hsame | (uid & c & _ & _ & Hdb)];
    destruct (worker_step w s.2) as [w' db']; simpl in *; [by left |].
  right. by exists uid, (w_code w).
Qed.

Lemma run_granted_monotone sched (s : system) code :
  granted code s.2 ≤ granted code (run sched s).2 ∧
  capacity code (run sched s).2 = capacity code s.2.
Proof.
  unfold run. revert s.
  induction sched as [| i sched IH]; intros s; [done |]. simpl.
  destruct (IH (system_step s i)) as [Hmono ->].
  destruct (system_step_db s i) as [Hdb | (uid & code' & Hdb)];
    rewrite Hdb in Hmono |- *; [done |].
  rewrite grant_capacity. split; [| done].
  pose proof (grant_granted_mono uid code' code s.2). lia.
Qed.

(** C4 (capacity invariant): the counter is never negative and never
    goes down, and requests served one after the other keep it within the
    capacity, but requests running at once do not.  In the seeded shop,
    where FLASH50 has 100 uses, 101 requests of customer 1 that all pass
    the checks before any of them writes are all applied, and the counter
    ends at 101. *)
Theorem granted_passes_capacity :
  within_capacity seed_db ∧
  raced =
    run (checks_then_commits 101)
      (replicate 101
         (redeem_request NoFault (authenticate (Some 1) seed_db) "FLASH50"),
       seed_db) ∧
  capacity "FLASH50" raced.2 = 100 ∧
  granted "FLASH50" raced.2 = 101 ∧
  length (filter (λ r, applied r = true) (replies raced)) = 101%nat ∧
  ¬ within_capacity raced.2.
Proof.
  assert (coupons raced.2 !! "FLASH50" =
            Some {| discount := 50; max_uses := 100; current_uses := 101 |})
    as Hc by (vm_compute; reflexivity).
  split; [| split; [reflexivity |]; split; [| split; [| split]]].
  - intros code c. unfold seed_db; simpl.
    intros Hseed. apply lookup_singleton_Some in Hseed as [<- <-].
    simpl. lia.
  - unfold capacity. by rewrite Hc.
  - unfold granted. by rewrite Hc.
  - vm_compute. reflexivity.
  - intros Hwithin. specialize (Hwithin _ _ Hc). simpl in Hwithin. lia.
Qed.

(** C1 (capacity under concurrency): with one use of VIP1 and two
    customers who never redeemed it, both requests pass the checks before
    either writes; both are applied, none is answered EXHAUSTED, and two
    grants are made where the capacity is one. *)
Theorem concurrent_grants_exceed_capacity :
  let rq1 := redeem_request NoFault (authenticate (Some 1) single_use_db) "VIP1" in
  let rq2 := redeem_request NoFault (authenticate (Some 2) single_use_db) "VIP1" in
  let s := run (checks_then_commits 2) ([rq1; rq2], single_use_db) in
  capacity "VIP1" single_use_db = 1 ∧
  granted "VIP1" single_use_db = 0 ∧
  coupon_redemptions single_use_db = [] ∧
  replies s = [Some (CouponApplied 10); Some (CouponApplied 10)] ∧
  length (filter (λ r, applied r = true) (replies s)) = 2%nat ∧
  Z.min 2 (capacity "VIP1" single_use_db) = 1 ∧
  (Some CouponExhausted ∉ replies s) ∧
  granted "VIP1" s.2 = 2 ∧
  ¬ (granted "VIP1" s.2 ≤ capacity "VIP1" s.2).
Proof.
  intros rq1 rq2 s.
  assert (replies s = [Some (CouponApplied 10); Some (CouponApplied 10)])
    as Hreplies by (vm_compute; reflexivity).
  assert (granted "VIP1" s.2 = 2) as Hgranted by (vm_compute; reflexivity).
  assert (capacity "VIP1" s.2 = 1) as Hcap by (vm_compute; reflexivity).
  rewrite Hreplies, Hgranted, Hcap.
  repeat split; try reflexivity.
  - intros Hin. apply list_elem_of_In in Hin.
    destruct Hin as [? | [? | []]]; discriminate.
  - lia.
Qed.

(** ** Distinct customers served in turn

    What the capacity bound asks for does hold when the requests do not
    overlap: of [N] customers without a record, the first [min N C'] are
    applied, [C'] being the uses left, and the others are answered
    "exhausted". *)

Lemma authenticate_known uid db :
  is_Some (users db !! uid) → authenticate (Some uid) db = Some uid.
Proof. intros [u Hu]. unfold authenticate. by rewrite Hu. Qed.

(** Customers with accounts and without a record, each asking once and
    in turn for a coupon: the first [n] are applied, [n] being the number
    of customers or the number of uses left, whichever is smaller; the
    others are answered "exhausted"; and the counter rises by [n]. *)
Lemma serial_redemptions code uids : ∀ db c,
  coupons db !! code = Some c →
  NoDup uids →
  (∀ uid, uid ∈ uids →
     is_Some (users db !! uid) ∧
     select_redemptions uid code (coupon_redemptions db) = []) →
  let n := (length uids `min` Z.to_nat (max_uses c - current_uses c))%nat in
  (serve (redeem_in_turn code uids) db).1 =
    replicate n (CouponApplied (discount c)) ++
    replicate (length uids - n) CouponExhausted ∧
  granted code (serve (redeem_in_turn code uids) db).2 =
    current_uses c + Z.of_nat n.
Proof.
  induction uids as [| uid uids IH]; intros db c Hc Hnodup Hnew n.
  { subst n. simpl. unfold granted. rewrite Hc. simpl. split; [done | lia]. }
  apply NoDup_cons in Hnodup as [Hfresh Hnodup].
  destruct (Hnew uid) as [Hknown Hnone]; [by left |].
  unfold redeem_in_turn. rewrite fmap_cons, serve_cons. cbn [handle fst snd].
  rewrite (authenticate_known _ _ Hknown).
  fold (redeem_in_turn code uids).
  destruct (decide (current_uses c < max_uses c)) as [Hfree | Hfull].
  - rewrite (redeem_coupon_granted _ _ _ c) by done. cbn [fst snd].
    set (db1 := insert_redemption uid code (increment_uses code db)).
    assert (coupons db1 !! code = Some (use_once c)) as Hc1.
    { unfold db1. rewrite coupons_insert_redemption, lookup_increment_uses.
      by rewrite decide_True, Hc. }
    destruct (IH db1 (use_once c) Hc1 Hnodup) as [Hreplies Hgranted].
    { intros uid' Hin. destruct (Hnew uid') as [Hknown' Hnone']; [by right |].
      split; [done |]. unfold db1.
      rewrite select_redemptions_insert, decide_False, app_nil_r; [done |].
      intros [-> _]. done. }
    rewrite Hreplies, Hgranted. cbn [use_once discount max_uses current_uses].
    assert (n = S (length uids `min`
                     Z.to_nat (max_uses c - (current_uses c + 1))))%nat
      as -> by (subst n; simpl length; lia).
    split; [done | lia].
  - rewrite (redeem_coupon_exhausted _ _ _ _ c) by (done || lia).
    cbn [fst snd].
    destruct (IH db c Hc Hnodup) as [Hreplies Hgranted].
    { intros uid' Hin. apply Hnew. by right. }
    rewrite Hreplies, Hgranted.
    assert (n = 0%nat) as -> by (subst n; lia).
    replace (length uids `min` Z.to_nat (max_uses c - current_uses c))%nat
      with 0%nat by lia.
    simpl. rewrite Nat.sub_0_r. split; [done | lia].
Qed.

(** ** Requests that all check before any commits

    The schedule behind the two failures above, for any number of
    requests: each request in turn takes the step [h x] to [h' x], which
    writes [g x]. *)

Lemma run_app sched1 sched2 (s : system) :
  run (sched1 ++ sched2) s = run sched2 (run sched1 s).
Proof. apply foldl_app. Qed.





(** * Further properties of the code *)

(** ** Schema provisioning *)

Lemma next_user_id_fresh (us : gmap Z user) : us !! next_user_id us = None.
Proof.
  destruct (us !! next_user_id us) as [u|] eqn:Hlook; [exfalso | done].
  apply elem_of_map_to_list in Hlook.
  assert (next_user_id us ∈ (map_to_list us).*1) as Hin.
  { apply list_elem_of_fmap. by exists (next_user_id us, u). }
  apply max_rowid_ge in Hin. unfold next_user_id in Hin. lia.
Qed.

Lemma email_taken_false e (us : gmap Z user) i u :
  email_taken e us = false → us !! i = Some u → email u ≠ e.
Proof.
  unfold email_taken. intros Hfree Hi He.
  apply bool_decide_eq_false in Hfree. apply Hfree.
  apply Exists_exists. exists (i, u). split; [| done].
  by apply elem_of_map_to_list.
Qed.

(** On a new database file [init_db] leaves the seeded shop. *)
Lemma init_db_empty : init_db empty_db = seed_db.
Proof. reflexivity. Qed.

Lemma init_db_present (db : DB) :
  is_Some (coupons db !! "FLASH50") → init_db db = db.
Proof. intros [c Hc]. unfold init_db. by rewrite Hc. Qed.

Lemma init_db_provides (db : DB) : is_Some (coupons (init_db db) !! "FLASH50").
Proof.
  unfold init_db. destruct (coupons db !! "FLASH50") as [c|] eqn:Hc.
  - by rewrite Hc.
  - cbv zeta. destruct (email_taken _ _); simpl;
      rewrite lookup_insert_eq; by eexists.
Qed.

(** Running [init_db] again, as every start of the application does,
    changes nothing more: the second run finds FLASH50 and stops at the
    first insert. *)
Theorem init_db_idempotent (db : DB) : init_db (init_db db) = init_db db.
Proof.
  assert (is_Some (coupons (init_db db) !! "FLASH50")) as [c Hseeded].
  { unfold init_db.
    destruct (coupons db !! "FLASH50") as [c|] eqn:Hc; [by rewrite Hc |].
    cbv zeta. destruct (email_taken _ _); simpl;
      rewrite lookup_insert_eq; by eexists. }
  unfold init_db at 1. by rewrite Hseeded.
Qed.

(** [init_db] keeps every row it finds: the orders and the redemptions
    are untouched, no coupon row is changed (a restart does not reset the
    counter of FLASH50) and no account is changed; afterwards FLASH50
    exists.  When FLASH50 was there already, nothing at all is written,
    not even a missing default account. *)
Theorem init_db_keeps_rows (db : DB) :
  orders (init_db db) = orders db ∧
  coupon_redemptions (init_db db) = coupon_redemptions db ∧
  (∀ code c, coupons db !! code = Some c →
     coupons (init_db db) !! code = Some c) ∧
  (∀ i u, users db !! i = Some u → users (init_db db) !! i = Some u) ∧
  is_Some (coupons (init_db db) !! "FLASH50") ∧
  (is_Some (coupons db !! "FLASH50") → init_db db = db).
Proof.
  split; [| split; [| split; [| split; [| split]]]];
    [.. | apply init_db_provides | apply init_db_present].
  all: unfold init_db;
    destruct (coupons db !! "FLASH50") as [c0|] eqn:Hc; [done |];
    cbv zeta; destruct (email_taken _ _); simpl; try done.
  - intros code c Hcode. rewrite lookup_insert_ne; [done |].
    intros <-. by rewrite Hc in Hcode.
  - intros code c Hcode. rewrite lookup_insert_ne; [done |].
    intros <-. by rewrite Hc in Hcode.
  - intros i u Hi. rewrite lookup_insert_ne; [done |].
    intros <-. by rewrite next_user_id_fresh in Hi.
Qed.

(** [init_db] never makes a second account with an e-mail in use. *)
Theorem init_db_unique_emails (db : DB) :
  unique_emails db → unique_emails (init_db db).
Proof.
  intros Huniq. unfold init_db.
  destruct (coupons db !! "FLASH50"); [done |]. cbv zeta.
  destruct (email_taken _ _) eqn:Htaken; [done |].
  intros i j u v. simpl.
  rewrite !lookup_insert_Some.
  intros [[<- <-] | [Hi Hu]] [[<- <-] | [Hj Hv]] Hmail; try done.
  - exfalso. by eapply (email_taken_false _ _ j v Htaken Hv).
  - exfalso. by eapply (email_taken_false _ _ i u Htaken Hu).
  - by eapply Huniq.
Qed.

(** The theorem at two stores with two accounts each: one where
    [init_db] adds the default account as a third, and one where the
    e-mail of the default account is in use and no account is added. *)
Lemma init_db_unique_emails_witness :
  (unique_emails two_accounts_db ∧
   size (users (init_db two_accounts_db)) = 3%nat ∧
   unique_emails (init_db two_accounts_db)) ∧
  (unique_emails taken_email_db ∧
   size (users (init_db taken_email_db)) = 2%nat ∧
   is_Some (coupons (init_db taken_email_db) !! "FLASH50") ∧
   unique_emails (init_db taken_email_db)).
Proof.
  assert (unique_emails two_accounts_db) as Htwo.
  { intros i j u v Hi Hj Hmail. unfold two_accounts_db in Hi, Hj.
    cbn [users] in Hi, Hj.
    apply lookup_insert_Some in Hi as [[<- <-] | [_ Hi]];
      apply lookup_insert_Some in Hj as [[<- <-] | [_ Hj]];
      try apply lookup_singleton_Some in Hi as [<- <-];
      try apply lookup_singleton_Some in Hj as [<- <-];
      (reflexivity || discriminate Hmail). }
  assert (unique_emails taken_email_db) as Htaken.
  { intros i j u v Hi Hj Hmail. unfold taken_email_db in Hi, Hj.
    cbn [users] in Hi, Hj.
    apply lookup_insert_Some in Hi as [[<- <-] | [_ Hi]];
      apply lookup_insert_Some in Hj as [[<- <-] | [_ Hj]];
      try apply lookup_singleton_Some in Hi as [<- <-];
      try apply lookup_singleton_Some in Hj as [<- <-];
      (reflexivity || discriminate Hmail). }
  split.
  - split; [exact Htwo |]. split; [reflexivity |].
    exact (init_db_unique_emails two_accounts_db Htwo).
  - split; [exact Htaken |]. split; [reflexivity |].
    split; [by eexists |].
    exact (init_db_unique_emails taken_email_db Htaken).
Defined.

(** ** Replies that report an error *)

(** Whatever the route, a request that is answered with an error has
    written nothing. *)
Theorem handle_error_writes_nothing (rq : request) (db : DB) :
  error_of (handle rq db).1 ≠ None → (handle rq db).2 = db.
Proof.
  destruct rq as [h total | order_id | order_id | f h code]; cbn [handle].
  - unfold create_order. destruct (authenticate h db); [| done].
    by destruct (fits_int64 _).
  - done.
  - unfold ship_order. destruct (orders db !! order_id); [| done].
    by case_bool_decide.
  - destruct (redeem_coupon_writes f (authenticate h db) code db)
      as [-> | (uid & c & _ & _ & _ & _ & ->)]; done.
Qed.

Lemma handle_error_writes_nothing_witness :
  (handle (Ship 42) seed_db).2 = seed_db.
Proof. apply (handle_error_writes_nothing (Ship 42) seed_db). done. Defined.

(** ** Checkout *)

Lemma next_order_id_above (os : gmap Z order) j :
  is_Some (os !! j) → j < next_order_id os.
Proof.
  intros [o Hj]. apply elem_of_map_to_list in Hj.
  assert (j ∈ (map_to_list os).*1) as Hin.
  { apply list_elem_of_fmap. by exists (j, o). }
  apply max_rowid_ge in Hin. unfold next_order_id. lia.
Qed.

(** In a store with the usual order ids, the id a checkout gives to the
    new order is above every id in use and is a positive 64-bit integer;
    unless it is the largest one, the ids are the usual ones afterwards
    too and the next checkout will give a larger id still.  The table
    grows by this one row, and the other tables are not written. *)
Theorem create_order_ids_increase (db : DB) (uid : Z) (total : option Z) :
  usual_order_ids db →
  fits_int64 (default 0 total) = true →
  let db' := (create_order (Some uid) total db).2 in
  (∀ j, is_Some (orders db !! j) → j < next_order_id (orders db)) ∧
  0 < next_order_id (orders db) ≤ 2 ^ 63 - 1 ∧
  (next_order_id (orders db) < 2 ^ 63 - 1 →
     usual_order_ids db' ∧
     next_order_id (orders db) < next_order_id (orders db')) ∧
  size (orders db') = S (size (orders db)) ∧
  users db' = users db ∧ coupons db' = coupons db ∧
  coupon_redemptions db' = coupon_redemptions db.
Proof.
  intros Husual Hfits db'. subst db'. unfold create_order. rewrite Hfits.
  cbn [snd]. pose proof (next_order_id_usual db Husual) as Hnew.
  split; [apply next_order_id_above |]. split; [done |].
  split; [| split; [| done]].
  - intros Hbelow. split.
    + intros j [o Hj]. cbn [orders set_orders] in Hj.
      apply lookup_insert_Some in Hj as [[<- _] | [_ Hj]]; [lia |].
      apply Husual. by eexists.
    + apply next_order_id_above. simpl. rewrite lookup_insert_eq.
      by eexists.
  - simpl. apply map_size_insert_None, next_order_id_fresh.
Qed.

(** The theorem at a second checkout in the shop that holds order 1: the
    new order is 2, and the one after it will be 3. *)
Lemma create_order_ids_increase_witness :
  let db' := (create_order (Some 1) (Some 120) paid_db).2 in
  usual_order_ids paid_db ∧
  is_Some (orders paid_db !! 1) ∧
  next_order_id (orders paid_db) = 2 ∧
  next_order_id (orders db') = 3 ∧
  (∀ j, is_Some (orders paid_db !! j) → j < next_order_id (orders paid_db)) ∧
  0 < next_order_id (orders paid_db) ≤ 2 ^ 63 - 1 ∧
  (next_order_id (orders paid_db) < 2 ^ 63 - 1 →
     usual_order_ids db' ∧
     next_order_id (orders paid_db) < next_order_id (orders db')) ∧
  size (orders db') = S (size (orders paid_db)) ∧
  users db' = users paid_db ∧ coupons db' = coupons paid_db ∧
  coupon_redemptions db' = coupon_redemptions paid_db.
Proof.
  assert (usual_order_ids paid_db) as Husual.
  { intros j [o Hj].
    assert (orders paid_db =
              {[ 1 := {| user_id := 1; total_amount := 500;
                         order_status := PAID |} ]}) as Horders
      by reflexivity.
    rewrite Horders in Hj. apply lookup_singleton_Some in Hj as [<- _].
    split; reflexivity. }
  intros db'. split; [exact Husual |]. split; [by eexists |].
  split; [reflexivity |]. split; [reflexivity |].
  exact (create_order_ids_increase paid_db 1 (Some 120) Husual eq_refl).
Defined.

(** ** Payment and shipment *)

Lemma set_status_twice st1 st2 (o : order) :
  set_status st2 (set_status st1 o) = set_status st2 o.
Proof. done. Qed.

(** A payment confirmation repeated is the payment confirmation made
    once: the same reply and the same database. *)
Theorem process_payment_idempotent (order_id : Z) (db : DB) :
  process_payment order_id (process_payment order_id db).2 =
    process_payment order_id db.
Proof.
  unfold process_payment, update_order_status. cbn [snd]. f_equal.
  unfold set_orders. simpl. f_equal.
  rewrite alter_alter_eq. by apply alter_ext.
Qed.

(** A payment confirmation writes the status of the order it names and
    nothing else: the owner and the amount of that order, the other
    orders, the accounts, the coupons and the redemptions stay. *)
Theorem process_payment_frame (order_id : Z) (db : DB) :
  let db' := (process_payment order_id db).2 in
  orders db' !! order_id = set_status PAID <$> orders db !! order_id ∧
  (∀ j, j ≠ order_id → orders db' !! j = orders db !! j) ∧
  users db' = users db ∧ coupons db' = coupons db ∧
  coupon_redemptions db' = coupon_redemptions db.
Proof.
  unfold process_payment. cbn [snd]. split; [| split; [| done]].
  - by rewrite update_order_status_lookup, decide_True.
  - intros j Hj. by rewrite update_order_status_lookup, decide_False.
Qed.

(** The guard of [ship_order] at work: when a shipment succeeds, the same
    request made again right after is refused with "invalid state" and
    writes nothing. *)
Theorem ship_order_not_twice (order_id : Z) (db : DB) :
  error_of (ship_order order_id db).1 = None →
  ship_order order_id (ship_order order_id db).2 =
    (OrderCannotBeShipped, (ship_order order_id db).2).
Proof.
  destruct (orders db !! order_id) as [o|] eqn:Ho;
    [| unfold ship_order; by rewrite Ho].
  rewrite (ship_order_found _ _ _ Ho).
  case_bool_decide; [done |]. intros _. cbn [snd].
  rewrite (ship_order_found _ _ (set_status SHIPPED o)).
  - done.
  - by rewrite update_order_status_lookup, decide_True, Ho.
Qed.

Lemma ship_order_not_twice_witness :
  ship_order 1 (ship_order 1 paid_db).2 =
    (OrderCannotBeShipped, (ship_order 1 paid_db).2).
Proof. apply (ship_order_not_twice 1 paid_db). reflexivity. Defined.

(** ** The statuses an order goes through *)

Lemma handle_status rq db j o :
  orders db !! j = Some o →
  ∃ st, orders (handle rq db).2 !! j = Some (set_status st o) ∧
        st ∈ [order_status o; PAID; SHIPPED].
Proof.
  intros Hj.
  assert (∃ st, orders db !! j = Some (set_status st o) ∧
                st ∈ [order_status o; PAID; SHIPPED]) as Hsame.
  { exists (order_status o). rewrite set_status_same. split; [done | by left]. }
  destruct rq as [h total | order_id | order_id | f h code]; cbn [handle].
  - unfold create_order. destruct (authenticate h db) as [uid|]; [| done].
    destruct (fits_int64 _); [| done]. cbn [snd set_orders orders].
    rewrite lookup_insert_ne; [done |].
    intros Heq. rewrite <- Heq, next_order_id_fresh in Hj. done.
  - unfold process_payment. cbn [snd].
    rewrite update_order_status_lookup. case_decide; [| done].
    subst. rewrite Hj. exists PAID. split; [done |]. rewrite !elem_of_cons. auto.
  - unfold ship_order. destruct (orders db !! order_id); [| done].
    case_bool_decide; [done |]. cbn [snd].
    rewrite update_order_status_lookup. case_decide; [| done].
    subst. rewrite Hj. exists SHIPPED. split; [done |]. rewrite !elem_of_cons. auto.
  - destruct (redeem_coupon_writes f (authenticate h db) code db)
      as [-> | (uid & c & _ & _ & _ & _ & ->)]; done.
Qed.

(** Whatever requests are served, an order stays in the table with its
    owner and amount, and its status is the one it had, PAID or SHIPPED:
    no request cancels an order or takes it back to PENDING. *)
Theorem serve_status (rqs : list request) (db : DB) (j : Z) (o : order) :
  orders db !! j = Some o →
  ∃ st, orders (serve rqs db).2 !! j = Some (set_status st o) ∧
        st ∈ [order_status o; PAID; SHIPPED].
Proof.
  revert db o. induction rqs as [| rq rqs IH]; intros db o Hj.
  - exists (order_status o). rewrite set_status_same. split; [done | by left].
  - rewrite serve_cons. cbn [snd].
    destruct (handle_status rq db j o Hj) as (st1 & H1 & Hst1).
    destruct (IH _ _ H1) as (st2 & H2 & Hst2).
    exists st2. split; [done |]. simpl in Hst2.
    rewrite !elem_of_cons, !elem_of_nil in Hst1, Hst2 |- *.
    destruct Hst2 as [-> | [-> | [-> | []]]]; [exact Hst1 | auto | auto].
Qed.

Lemma serve_status_witness :
  ∃ st, orders (serve [Payment 1; Ship 1; Payment 1] paid_db).2 !! 1 =
          Some (set_status st {| user_id := 1; total_amount := 500;
                                 order_status := PAID |}) ∧
        st ∈ [PAID; PAID; SHIPPED].
Proof.
  exact (serve_status [Payment 1; Ship 1; Payment 1] paid_db 1
           {| user_id := 1; total_amount := 500; order_status := PAID |}
           eq_refl).
Defined.

(** ** Checkout, payment, shipment *)

(** The three steps in a row, in a store with the usual order ids, for
    any customer with an account and any total that fits: the order is
    created PENDING under a new id, paid, shipped with the tracking token,
    and a further shipment request is refused as "invalid state". *)
Theorem checkout_pay_ship (db : DB) (uid : Z) (total : option Z) :
  usual_order_ids db →
  is_Some (users db !! uid) →
  fits_int64 (default 0 total) = true →
  let order_id := next_order_id (orders db) in
  let out := serve [Checkout (Some uid) total; Payment order_id;
                    Ship order_id; Ship order_id] db in
  0 < order_id ≤ 2 ^ 63 - 1 ∧
  orders db !! order_id = None ∧
  out.1 = [OrderCreated order_id PENDING; PaymentSuccessful PAID;
           OrderShipped SHIPPED "TRACK-12345"; OrderCannotBeShipped] ∧
  orders out.2 !! order_id =
    Some {| user_id := uid; total_amount := default 0 total;
            order_status := SHIPPED |}.
Proof.
  intros Husual Huser Hfits order_id out. subst out.
  split; [by apply next_order_id_usual |].
  split; [apply next_order_id_fresh |].
  rewrite !serve_cons. cbn [handle serve fst snd].
  rewrite (authenticate_known _ _ Huser).
  set (o := {| user_id := uid; total_amount := default 0 total;
               order_status := PENDING |}).
  assert (create_order (Some uid) total db =
            (OrderCreated order_id PENDING,
             set_orders db (<[order_id := o]> (orders db)))) as ->.
  { unfold create_order. by rewrite Hfits. }
  cbn [fst snd]. unfold process_payment. cbn [fst snd].
  set (db1 := set_orders db (<[order_id := o]> (orders db))).
  assert (orders (update_order_status PAID order_id db1) !! order_id =
            Some (set_status PAID o)) as Hpaid.
  { rewrite update_order_status_lookup, decide_True by done.
    unfold db1. simpl. by rewrite lookup_insert_eq. }
  rewrite (ship_order_found _ _ _ Hpaid). cbn [fst snd].
  change (bool_decide (terminal (order_status (set_status PAID o))))
    with false. cbv iota. cbn [fst snd].
  set (db2 := update_order_status PAID order_id db1) in *.
  assert (orders (update_order_status SHIPPED order_id db2) !! order_id =
            Some (set_status SHIPPED o)) as Hshipped.
  { by rewrite update_order_status_lookup, decide_True, Hpaid. }
  rewrite (ship_order_found _ _ _ Hshipped).
  change (bool_decide (terminal (order_status (set_status SHIPPED o))))
    with true. cbv iota. cbn [fst snd]. done.
Qed.

(** The theorem at a second order in the shop that holds order 1. *)
Lemma checkout_pay_ship_witness :
  let out := serve [Checkout (Some 1) None; Payment 2; Ship 2; Ship 2]
               paid_db in
  usual_order_ids paid_db ∧
  is_Some (orders paid_db !! 1) ∧
  0 < 2 ≤ 2 ^ 63 - 1 ∧
  orders paid_db !! 2 = None ∧
  out.1 = [OrderCreated 2 PENDING; PaymentSuccessful PAID;
           OrderShipped SHIPPED "TRACK-12345"; OrderCannotBeShipped] ∧
  orders out.2 !! 2 =
    Some {| user_id := 1; total_amount := 0; order_status := SHIPPED |}.
Proof.
  assert (usual_order_ids paid_db) as Husual.
  { intros j [o Hj].
    assert (orders paid_db =
              {[ 1 := {| user_id := 1; total_amount := 500;
                         order_status := PAID |} ]}) as Horders
      by reflexivity.
    rewrite Horders in Hj. apply lookup_singleton_Some in Hj as [<- _].
    split; reflexivity. }
  intros out. split; [exact Husual |]. split; [by eexists |].
  exact (checkout_pay_ship paid_db 1 None Husual
           (ex_intro _ _ eq_refl) eq_refl).
Defined.

(** ** References between the tables *)

Lemma authenticate_Some h db uid :
  authenticate h db = Some uid → h = Some uid ∧ is_Some (users db !! uid).
Proof.
  unfold authenticate. destruct h as [uid'|]; [| done].
  destruct (users db !! uid') eqn:Hu; [| done].
  intros [= <-]. by rewrite Hu.
Qed.

Lemma handle_references rq db :
  references_hold db → references_hold (handle rq db).2.
Proof.
  intros Href. pose proof Href as [Horders Hrows].
  destruct rq as [h total | order_id | order_id | f h code]; cbn [handle].
  - unfold create_order.
    destruct (authenticate h db) as [uid|] eqn:Hauth; [| done].
    destruct (fits_int64 _); [| done]. split; [| done].
    intros j o. cbn [snd set_orders orders users].
    intros [[<- <-] | [_ Hj]]%lookup_insert_Some; [| by eapply Horders].
    by apply authenticate_Some in Hauth as [_ ?].
  - split; [| done]. intros j o. unfold process_payment. cbn [snd].
    rewrite update_order_status_lookup. case_decide; [| apply Horders].
    destruct (orders db !! order_id) as [o'|] eqn:Ho; [| done].
    intros [= <-]. exact (Horders order_id o' Ho).
  - unfold ship_order. destruct (orders db !! order_id) as [o'|] eqn:Ho;
      [| done].
    case_bool_decide; [done |]. split; [| done]. intros j o. cbn [snd].
    rewrite update_order_status_lookup. case_decide; [| apply Horders].
    rewrite Ho. intros [= <-]. exact (Horders order_id o' Ho).
  - destruct (authenticate h db) as [uid'|] eqn:Hauth;
      [| done].
    destruct (redeem_coupon_writes f (Some uid') code db)
      as [-> | (uid & c & [= <-] & Hc & _ & _ & ->)]; [done |].
    apply authenticate_Some in Hauth as [_ Huser].
    assert (∀ code', is_Some (coupons db !! code') →
              is_Some (coupons (increment_uses code db) !! code')) as Hdom.
    { intros code' [c' Hc']. rewrite lookup_increment_uses.
      case_decide; [subst; rewrite Hc' | rewrite Hc']; by eexists. }
    split; [done |]. intros r. cbn [snd insert_redemption set_redemptions
      coupon_redemptions users coupons increment_uses set_coupons].
    intros [Hr | ->%list_elem_of_singleton]%elem_of_app.
    + destruct (Hrows r Hr) as [? ?]. split; [done |]. by apply Hdom.
    + simpl. split; [done |]. apply Hdom. by eexists.
Qed.

(** Requests served one after the other keep the references between the
    tables: every order belongs to an existing account, and every
    redemption row names an existing account and an existing coupon. *)
Theorem serve_references (rqs : list request) (db : DB) :
  references_hold db → references_hold (serve rqs db).2.
Proof.
  revert db. induction rqs as [| rq rqs IH]; intros db Href; [done |].
  rewrite serve_cons. cbn [snd]. by apply IH, handle_references.
Qed.

Lemma serve_references_witness :
  references_hold
    (serve [Checkout (Some 1) (Some 500); Redeem NoFault (Some 1) "FLASH50"]
       seed_db).2.
Proof.
  apply (serve_references
           [Checkout (Some 1) (Some 500); Redeem NoFault (Some 1) "FLASH50"]
           seed_db).
  split.
  - intros j o Hj. unfold seed_db in Hj. simpl in Hj.
    by apply lookup_empty_Some in Hj.
  - intros r Hr. unfold seed_db in Hr. simpl in Hr.
    by apply elem_of_nil in Hr.
Defined.

(** ** The redemptions table under any run *)

Lemma handle_appends rq db :
  coupon_redemptions db `prefix_of` coupon_redemptions (handle rq db).2.
Proof.
  destruct (handle_redemptions rq db)
    as [-> | (f & h & uid & code & _ & _ & ->)]; [done |].
  by eexists.
Qed.

Lemma system_step_appends (s : system) i :
  coupon_redemptions s.2 `prefix_of` coupon_redemptions (system_step s i).2.
Proof.
  destruct (system_step_db s i) as [-> | (uid & code & ->)]; [done |].
  by eexists.
Qed.

(** Rows of the redemptions table are only ever appended: after any
    requests, served in turn or running at once under any schedule, the
    table starts with the rows it had, unchanged and in their order. *)
Theorem redemptions_append_only (db : DB) :
  (∀ rqs, coupon_redemptions db `prefix_of`
            coupon_redemptions (serve rqs db).2) ∧
  (∀ sched ws, coupon_redemptions db `prefix_of`
                 coupon_redemptions (run sched (ws, db)).2).
Proof.
  split.
  - intros rqs. revert db. induction rqs as [| rq rqs IH]; intros db; [done |].
    rewrite serve_cons. cbn [snd].
    etrans; [apply (handle_appends rq) | apply IH].
  - intros sched ws. change db with (ws, db).2 at 1.
    generalize (ws, db). unfold run.
    induction sched as [| i sched IH]; intros s; [done |]. cbn [foldl].
    etrans; [apply (system_step_appends s i) | apply IH].
Qed.

Lemma next_redemption_id_fresh (rs : list redemption) :
  next_redemption_id rs ∉ red_id <$> rs.
Proof.
  intros Hin. apply max_rowid_ge in Hin. unfold next_redemption_id in Hin. lia.
Qed.

Lemma grant_unique_ids uid code db :
  unique_redemption_ids db →
  unique_redemption_ids (insert_redemption uid code (increment_uses code db)).
Proof.
  unfold unique_redemption_ids. simpl. intros Hnodup.
  rewrite fmap_app. apply NoDup_app. split; [done |]. split.
  - intros x Hx ->%list_elem_of_singleton.
    by apply next_redemption_id_fresh in Hx.
  - apply NoDup_singleton.
Qed.

(** The row ids of the redemptions stay pairwise distinct, whether the
    requests are served in turn or run at once. *)
Theorem redemption_ids_stay_unique (db : DB) :
  unique_redemption_ids db →
  (∀ rqs, unique_redemption_ids (serve rqs db).2) ∧
  (∀ sched ws, unique_redemption_ids (run sched (ws, db)).2).
Proof.
  intros Huniq. split.
  - intros rqs. revert db Huniq.
    induction rqs as [| rq rqs IH]; intros db Huniq; [done |].
    rewrite serve_cons. cbn [snd]. apply IH.
    destruct (handle_db rq db) as [-> | (uid & code & c & _ & _ & ->)];
      [done | by apply grant_unique_ids].
  - intros sched ws. change db with (ws, db).2 in Huniq.
    revert Huniq. generalize (ws, db). unfold run.
    induction sched as [| i sched IH]; intros s Huniq; [done |]. cbn [foldl].
    apply IH.
    destruct (system_step_db s i) as [-> | (uid & code & ->)];
      [done | by apply grant_unique_ids].
Qed.

Lemma redemption_ids_stay_unique_witness :
  (∀ rqs, unique_redemption_ids (serve rqs seed_db).2) ∧
  (∀ sched ws, unique_redemption_ids (run sched (ws, seed_db)).2).
Proof. apply (redemption_ids_stay_unique seed_db). apply NoDup_nil_2. Defined.

(** ** What concurrent redemptions leave alone *)

Lemma grant_terms uid code code' db :
  (λ c, (discount c, max_uses c)) <$>
    coupons (insert_redemption uid code (increment_uses code db)) !! code' =
  (λ c, (discount c, max_uses c)) <$> coupons db !! code'.
Proof.
  rewrite coupons_insert_redemption, lookup_increment_uses.
  case_decide; [subst; by destruct (coupons db !! code') | done].
Qed.

(** Under any schedule, redemption requests running at once change no
    coupon's discount or limit, add and remove no coupon, lower no
    counter, and write neither the accounts nor the orders. *)
Theorem run_keeps_terms (sched : list nat) (s : system) (code : string) :
  (λ c, (discount c, max_uses c)) <$> coupons (run sched s).2 !! code =
    (λ c, (discount c, max_uses c)) <$> coupons s.2 !! code ∧
  granted code s.2 ≤ granted code (run sched s).2 ∧
  users (run sched s).2 = users s.2 ∧
  orders (run sched s).2 = orders s.2.
Proof.
  split; [| split; [apply run_granted_monotone |]].
  - unfold run. revert s.
    induction sched as [| i sched IH]; intros s; [done |]. cbn [foldl].
    rewrite IH.
    destruct (system_step_db s i) as [-> | (uid & code' & ->)];
      [done | apply grant_terms].
  - unfold run. revert s.
    induction sched as [| i sched IH]; intros s; [done |]. cbn [foldl].
    destruct (IH (system_step s i)) as [-> ->].
    by destruct (system_step_db s i) as [-> | (uid & code' & ->)].
Qed.

(** ** The counter, the rows and the replies under any schedule *)









(** ** A schedule without overlap is sequential service *)

Lemma system_step_middle pre (w : worker) post db :
  system_step (pre ++ w :: post, db) (length pre) =
    (pre ++ (worker_step w db).1 :: post, (worker_step w db).2).
Proof.
  unfold system_step. cbn [fst snd].
  rewrite list_lookup_middle by done.
  destruct (worker_step w db) as [w' db']. cbn [fst snd].
  by rewrite insert_app_r_alt, Nat.sub_diag by lia.
Qed.

Lemma users_handle rq db : users (handle rq db).2 = users db.
Proof.
  by destruct (handle_db rq db) as [-> | (uid & code & c & _ & _ & ->)].
Qed.

Lemma authenticate_handle h rq db :
  authenticate h (handle rq db).2 = authenticate h db.
Proof. unfold authenticate. by rewrite users_handle. Qed.

(** The three steps of one request among others that stand still. *)
Lemma run_three_steps pre post f g_user code db :
  run [length pre; length pre; length pre]
    (pre ++ redeem_request f g_user code :: post, db) =
  (pre ++ at_pc (redeem_request f g_user code)
            (Replied (redeem_coupon f g_user code db).1) :: post,
   (redeem_coupon f g_user code db).2).
Proof.
  pose proof (redeem_coupon_steps f g_user code db) as Hsteps.
  unfold run in *. cbn [foldl] in *.
  pose proof (system_step_middle [] (redeem_request f g_user code) [] db)
    as H1. cbn [app length] in H1. rewrite H1 in Hsteps.
  rewrite system_step_middle.
  set (w1 := (worker_step (redeem_request f g_user code) db).1) in *.
  set (db1 := (worker_step (redeem_request f g_user code) db).2) in *.
  pose proof (system_step_middle [] w1 [] db1) as H2.
  cbn [app length] in H2. rewrite H2 in Hsteps.
  rewrite system_step_middle.
  set (w2 := (worker_step w1 db1).1) in *.
  set (db2 := (worker_step w1 db1).2) in *.
  pose proof (system_step_middle [] w2 [] db2) as H3.
  cbn [app length] in H3. rewrite H3 in Hsteps.
  rewrite system_step_middle.
  injection Hsteps as -> ->. done.
Qed.

Lemma run_one_at_a_time db0 (args : list redeem_args) : ∀ pre db,
  users db = users db0 →
  run (one_at_a_time (length pre) (length args))
    (pre ++ (as_worker db0 <$> args), db) =
  (pre ++ zip_with (λ a r, at_pc (as_worker db0 a) (Replied r)) args
            (serve (as_request <$> args) db).1,
   (serve (as_request <$> args) db).2).
Proof.
  induction args as [| a args IH]; intros pre db Husers; [done |].
  unfold one_at_a_time. cbn [length seq mbind list_bind fmap list_fmap].
  fold (one_at_a_time (S (length pre)) (length args)).
  rewrite run_app. unfold as_worker at 1.
  rewrite run_three_steps, serve_cons. cbn [fst snd zip_with handle as_request].
  assert (authenticate a.1.2 db0 = authenticate a.1.2 db) as Hauth.
  { unfold authenticate. by rewrite Husers. }
  rewrite Hauth.
  set (out := redeem_coupon a.1.1 (authenticate a.1.2 db) a.2 db).
  set (w' := at_pc (redeem_request a.1.1 (authenticate a.1.2 db) a.2)
               (Replied out.1)).
  replace (pre ++ w' :: (as_worker db0 <$> args))
    with ((pre ++ [w']) ++ (as_worker db0 <$> args))
    by (by rewrite <- app_assoc).
  replace (S (length pre)) with (length (pre ++ [w']))
    by (rewrite length_app; simpl; lia).
  rewrite IH.
  - rewrite <- app_assoc. cbn [app]. unfold as_worker at 2.
    by rewrite Hauth.
  - rewrite <- Husers. subst out.
    apply (users_handle (Redeem a.1.1 a.1.2 a.2) db).
Qed.

Lemma length_serve rqs db : length (serve rqs db).1 = length rqs.
Proof.
  revert db. induction rqs as [| rq rqs IH]; intros db; [done |].
  rewrite serve_cons. cbn [fst length]. by rewrite IH.
Qed.

(** A schedule that lets each redemption request finish before the next
    one starts gives the replies and the database of serving the requests
    in turn. *)
Theorem one_at_a_time_is_serve (args : list redeem_args) (db : DB) :
  let s' := run (one_at_a_time 0 (length args)) (as_worker db <$> args, db) in
  replies s' = Some <$> (serve (as_request <$> args) db).1 ∧
  s'.2 = (serve (as_request <$> args) db).2.
Proof.
  intros s'. subst s'.
  pose proof (run_one_at_a_time db args [] db eq_refl) as Hrun.
  cbn [app length] in Hrun. rewrite Hrun. cbn [fst snd].
  split; [| done]. unfold replies. cbn [fst].
  pose proof (length_serve (as_request <$> args) db) as Hlen.
  rewrite length_fmap in Hlen. revert Hlen.
  generalize (serve (as_request <$> args) db).1. clear Hrun.
  intros rs. revert rs.
  induction args as [| a args IH]; intros [| r rs] Hlen; try done.
  cbn [zip_with fmap list_fmap]. f_equal. apply IH.
  simpl in Hlen. lia.
Qed.

(** ** Callers without an account *)

(** A checkout or a redemption whose [X-User-ID] header is missing, or
    names no account, is refused with status 401 and writes nothing. *)
Theorem unknown_caller_refused (h : option Z) (db : DB) :
  (∀ uid, h = Some uid → users db !! uid = None) →
  (∀ total, handle (Checkout h total) db = (AuthenticationRequired, db)) ∧
  (∀ f code, handle (Redeem f h code) db = (Unauthorized, db)) ∧
  http_status AuthenticationRequired = 401 ∧ http_status Unauthorized = 401.
Proof.
  intros Hunknown.
  assert (authenticate h db = None) as Hauth.
  { unfold authenticate. destruct h as [uid|]; [| done].
    by rewrite (Hunknown uid). }
  repeat split; intros; cbn [handle]; by rewrite Hauth.
Qed.

Lemma unknown_caller_refused_witness :
  (∀ total, handle (Checkout (Some 7) total) seed_db =
              (AuthenticationRequired, seed_db)) ∧
  (∀ f code, handle (Redeem f (Some 7) code) seed_db =
               (Unauthorized, seed_db)) ∧
  http_status AuthenticationRequired = 401 ∧ http_status Unauthorized = 401.
Proof.
  apply (unknown_caller_refused (Some 7) seed_db).
  intros uid [= <-]. reflexivity.
Defined.

(** ** A storage error and the attempt after it *)

(** When the update, the insert or the commit raises, the caller is
    answered "redemption failed" with status 500, and the rollback leaves
    no trace: the same customer's next attempt is applied. *)
Theorem rollback_then_retry (f : fault) (uid : Z) (code : string) (db : DB)
    (c : coupon) :
  f ≠ NoFault →
  is_Some (users db !! uid) →
  coupons db !! code = Some c → current_uses c < max_uses c →
  select_redemptions uid code (coupon_redemptions db) = [] →
  handle (Redeem f (Some uid) code) db = (RedemptionFailed, db) ∧
  http_status RedemptionFailed = 500 ∧
  (serve [Redeem f (Some uid) code; Redeem NoFault (Some uid) code] db).1 =
    [RedemptionFailed; CouponApplied (discount c)].
Proof.
  intros Hf Huser Hc Hfree Hnew.
  assert (handle (Redeem f (Some uid) code) db = (RedemptionFailed, db))
    as Hfail.
  { cbn [handle]. rewrite (authenticate_known _ _ Huser).
    unfold redeem_coupon. rewrite Hc, bool_decide_false, Hnew by lia.
    cbn [head].
    destruct (apply_coupon f uid code db) as [db'|] eqn:Happly; [| done].
    by apply apply_coupon_Some in Happly as [? _]. }
  split; [done |]. split; [done |].
  rewrite !serve_cons, Hfail. cbn [fst snd handle serve].
  rewrite (authenticate_known _ _ Huser).
  by rewrite (redeem_coupon_granted _ _ _ c).
Qed.

Lemma rollback_then_retry_witness :
  handle (Redeem CommitRaises (Some 1) "FLASH50") seed_db =
    (RedemptionFailed, seed_db) ∧
  http_status RedemptionFailed = 500 ∧
  (serve [Redeem CommitRaises (Some 1) "FLASH50";
          Redeem NoFault (Some 1) "FLASH50"] seed_db).1 =
    [RedemptionFailed; CouponApplied 50].
Proof.
  apply (rollback_then_retry CommitRaises 1 "FLASH50" seed_db seed_coupon);
    [done | by eexists | reflexivity | simpl; lia | reflexivity].
Defined.

(** ** Instances of the lemmas on capacity *)

Lemma serial_redemptions_witness :
  (serve (redeem_in_turn "VIP1" [1; 2]) single_use_db).1 =
    [CouponApplied 10; CouponExhausted] ∧
  granted "VIP1" (serve (redeem_in_turn "VIP1" [1; 2]) single_use_db).2 = 1.
Proof.
  apply (serial_redemptions "VIP1" [1; 2] single_use_db
           {| discount := 10; max_uses := 1; current_uses := 0 |}).
  - reflexivity.
  - apply NoDup_cons. split; [| apply NoDup_singleton].
    intros Hin%list_elem_of_singleton. discriminate Hin.
  - intros uid Hin. apply list_elem_of_In in Hin.
    destruct Hin as [<- | [<- | []]]; (split; [by eexists | reflexivity]).
Defined.


Lemma serve_within_capacity_witness :
  within_capacity
    (serve [Redeem NoFault (Some 1) "FLASH50";
            Redeem NoFault (Some 1) "FLASH50"] seed_db).2.
Proof.
  apply (serve_within_capacity
           [Redeem NoFault (Some 1) "FLASH50";
            Redeem NoFault (Some 1) "FLASH50"] seed_db).
  intros code c Hseed. unfold seed_db in Hseed. simpl in Hseed.
  apply lookup_singleton_Some in Hseed as [<- <-]. simpl. lia.
Defined.
